(** * scripts/lint-style.py: a shallow embedding of the style linter

    The linter reads each file with [readlines], runs a fixed list of
    checks over the lines and prints every violation that the baseline
    (scripts/style-exceptions.txt) does not suppress.

    Python values are modelled as follows.
    - A [str] is the list of its Unicode code points, so that [len],
      [count], [in], [split] and [startswith] see what Python sees
      (the glyph U+1FB0 is one character).
    - A [Path] is the string [str(path)]; [resolve] and the [/] join
      with ROOT_DIR depend on the file system and are fields of
      [FileSystem].
    - A generator is the finite list of what it yields.
    - A function that can raise returns a [result]; [format_errors],
      which prints and sets the global [new_exceptions], is a state
      transformer. *)

From Stdlib Require Import List NArith ZArith Bool Arith Lia String Ascii.
From Stdlib Require Import DecimalString.
From Stdlib Require DecimalFacts DecimalNat.
Import ListNotations.

(** ** Python strings *)

Module Str.

Definition char := N.
Definition str := list char.

(** An ASCII literal of the source. *)
Definition lit (s : string) : str :=
  map N_of_ascii (list_ascii_of_string s).

Definition nl : char := 10%N.          (* "\n" *)
Definition quote : char := 34%N.       (* the double quote *)
Definition backslash : char := 92%N.
Definition space : char := 32%N.

(** A literal followed by the line terminator, as in ["/-\n"]. *)
Definition litn (s : string) : str := lit s ++ [nl].

(** [a == b] on strings. *)
Fixpoint eqb (a b : str) : bool :=
  match a, b with
  | [], [] => true
  | x :: a', y :: b' => N.eqb x y && eqb a' b'
  | _, _ => false
  end.

(** [s.startswith(pre)] *)
Fixpoint startswith (s pre : str) {struct pre} : bool :=
  match pre, s with
  | [], _ => true
  | p :: pre', c :: s' => N.eqb c p && startswith s' pre'
  | _ :: _, [] => false
  end.

(** [sub in s] *)
Fixpoint contains (sub s : str) : bool :=
  startswith s sub ||
  match s with
  | [] => false
  | _ :: s' => contains sub s'
  end.

(** [s.count(sub)] for a non-empty [sub]: the occurrences are counted
    from the left and do not overlap; [skip] is the number of
    characters still covered by the occurrence just counted. *)
Fixpoint count_from (skip : nat) (s sub : str) : nat :=
  match s with
  | [] => 0
  | _ :: s' =>
      match skip with
      | S k => count_from k s' sub
      | O => if startswith s sub
             then S (count_from (List.length sub - 1) s' sub)
             else count_from 0 s' sub
      end
  end.

Definition count (s sub : str) : nat := count_from 0 s sub.

(** [c.isspace()] *)
Definition isspace (c : char) : bool :=
  ((9 <=? c) && (c <=? 13) || (28 <=? c) && (c <=? 32) ||
   (c =? 133) || (c =? 160) || (c =? 5760) ||
   (8192 <=? c) && (c <=? 8202) || (c =? 8232) || (c =? 8233) ||
   (c =? 8239) || (c =? 8287) || (c =? 12288))%N.

(** [s.split()]: the maximal runs of non-whitespace characters.
    [cur] holds the characters of the token being read. *)
Fixpoint split_from (cur s : str) : list str :=
  match s with
  | [] => match cur with [] => [] | _ :: _ => [cur] end
  | c :: s' =>
      if isspace c
      then match cur with
           | [] => split_from [] s'
           | _ :: _ => cur :: split_from [] s'
           end
      else split_from (cur ++ [c]) s'
  end.

Definition split (s : str) : list str := split_from [] s.

(** [s.split(sep)] for a one-character [sep]: every separator ends a
    field, empty fields are kept. *)
Fixpoint split_on_from (sep : char) (cur s : str) : list str :=
  match s with
  | [] => [cur]
  | c :: s' =>
      if N.eqb c sep
      then cur :: split_on_from sep [] s'
      else split_on_from sep (cur ++ [c]) s'
  end.

Definition split_on (sep : char) (s : str) : list str :=
  split_on_from sep [] s.

(** ["{}".format(n)] for a non-negative integer. *)
Definition of_nat (n : nat) : str :=
  lit (NilEmpty.string_of_uint (Nat.to_uint n)).

End Str.

Import Str.

(** ** Results of functions that can raise *)

Inductive exn := IndexError | ValueError | OSError.

Inductive result (A : Type) : Type :=
| Ok (a : A)
| Raise (e : exn).

Arguments Ok {A} a.
Arguments Raise {A} e.

(** [l[i]] *)
Definition index {A} (l : list A) (i : nat) : result A :=
  match nth_error l i with
  | Some a => Ok a
  | None => Raise IndexError
  end.

(** [enumerate(lines, start)] *)
Fixpoint enumerate {A} (lines : list A) (start : nat) : list (nat * A) :=
  match lines with
  | [] => []
  | line :: rest => (start, line) :: enumerate rest (S start)
  end.

(** ** Violations and the baseline *)

(** ERR_COP = 0 ... ERR_OPT = 6 *)
Inductive errno :=
| ERR_COP  (* copyright header *)
| ERR_IMP  (* import statements *)
| ERR_MOD  (* module docstring *)
| ERR_LIN  (* line length *)
| ERR_SAV  (* the glyph U+1FB0 *)
| ERR_RNT  (* reserved notation *)
| ERR_OPT. (* set_option *)

Definition errno_code (e : errno) : Z :=
  match e with
  | ERR_COP => 0 | ERR_IMP => 1 | ERR_MOD => 2 | ERR_LIN => 3
  | ERR_SAV => 4 | ERR_RNT => 5 | ERR_OPT => 6
  end%Z.

Definition errno_eqb (a b : errno) : bool :=
  Z.eqb (errno_code a) (errno_code b).

Definition Path := str.

(** An entry of a check's [errors]: [(errno, line_nr, path)]. *)
Definition error : Type := errno * nat * Path.

Definition err_no (e : error) : errno := fst (fst e).
Definition err_line (e : error) : nat := snd (fst e).
Definition err_path (e : error) : Path := snd e.

(** What the script asks of the file system. *)
Record FileSystem := {
  resolve : Path -> Path;                 (* path.resolve() *)
  root_join : str -> Path;                (* ROOT_DIR / filename *)
  readlines : Path -> result (list str);  (* path.open() and f.readlines() *)
}.

(** The glyph U+1FB0. *)
Definition small_alpha_vrachy : char := 8112%N.

Definition comment_open : str := lit "/-".
Definition comment_close : str := lit "-/".

(** ** The line filters *)

(** [skip_comments]: the loop with its local [in_comment]. *)
Fixpoint skip_comments_loop (in_comment : bool) (enumerate_lines : list (nat * str))
  : list (nat * str) :=
  match enumerate_lines with
  | [] => []
  | (line_nr, line) :: rest =>
      let in_comment := if contains comment_open line then true else in_comment in
      if contains comment_close line then skip_comments_loop false rest
      else if eqb line (litn "") || in_comment then skip_comments_loop in_comment rest
      else (line_nr, line) :: skip_comments_loop in_comment rest
  end.

Definition skip_comments (enumerate_lines : list (nat * str)) : list (nat * str) :=
  skip_comments_loop false enumerate_lines.

(** The test [line.count(quote) - line.count(backslash quote) % 2 == 1];
    in Python [%] binds tighter than [-]. *)
Definition quote_test (line : str) : bool :=
  (Z.of_nat (count line [quote])
   - Z.of_nat (count line [backslash; quote]) mod 2 =? 1)%Z.

(** One iteration of the loop of [skip_string] on [line]: the new
    [(in_string, in_comment)] and whether the line is yielded. *)
Definition skip_string_step (st : bool * bool) (line : str) : (bool * bool) * bool :=
  let '(in_string, in_comment) := st in
  let in_comment :=
    if negb in_string then
      let in_comment := if contains comment_open line then true else in_comment in
      if contains comment_close line then false else in_comment
    else in_comment in
  if negb in_comment then
    let in_string := if quote_test line then negb in_string else in_string in
    if (0 <? count line [quote])%nat then ((in_string, in_comment), false)
    else if in_string then ((in_string, in_comment), false)
    else ((in_string, in_comment), true)
  else ((in_string, in_comment), true).

Fixpoint skip_string_loop (st : bool * bool) (enumerate_lines : list (nat * str))
  : list (nat * str) :=
  match enumerate_lines with
  | [] => []
  | (line_nr, line) :: rest =>
      let '(st', yielded) := skip_string_step st line in
      if yielded then (line_nr, line) :: skip_string_loop st' rest
      else skip_string_loop st' rest
  end.

Definition skip_string (enumerate_lines : list (nat * str)) : list (nat * str) :=
  skip_string_loop (false, false) enumerate_lines.

(** ** The checks *)

Definition bind {A B} (r : result A) (k : A -> result B) : result B :=
  match r with
  | Ok a => k a
  | Raise e => Raise e
  end.

Notation "x <- r ;; k" := (bind r (fun x => k))
  (at level 61, r at next level, right associativity).

Fixpoint small_alpha_vrachy_loop (path : Path) (errors : list error)
  (enumerate_lines : list (nat * str)) : list error :=
  match enumerate_lines with
  | [] => errors
  | (line_nr, line) :: rest =>
      if contains [small_alpha_vrachy] line
      then small_alpha_vrachy_loop path (errors ++ [(ERR_SAV, line_nr, path)]) rest
      else small_alpha_vrachy_loop path errors rest
  end.

Definition small_alpha_vrachy_check (lines : list str) (path : Path) : list error :=
  small_alpha_vrachy_loop path [] (skip_string (skip_comments (enumerate lines 1))).

Fixpoint reserved_notation_loop (path : Path) (errors : list error)
  (enumerate_lines : list (nat * str)) : list error :=
  match enumerate_lines with
  | [] => errors
  | (line_nr, line) :: rest =>
      if startswith line (lit "reserve") || startswith line (lit "precedence")
      then reserved_notation_loop path (errors ++ [(ERR_RNT, line_nr, path)]) rest
      else reserved_notation_loop path errors rest
  end.

Definition RESERVED_NOTATION (fs : FileSystem) : Path :=
  root_join fs (lit "src/tactic/reserved_notation.lean").

Definition reserved_notation_check (fs : FileSystem) (lines : list str) (path : Path)
  : list error :=
  if eqb (resolve fs path) (RESERVED_NOTATION fs) then []
  else reserved_notation_loop path [] (skip_string (skip_comments (enumerate lines 1))).

Fixpoint set_option_loop (path : Path) (errors : list error)
  (enumerate_lines : list (nat * str)) : result (list error) :=
  match enumerate_lines with
  | [] => Ok errors
  | (line_nr, line) :: rest =>
      if startswith line (lit "set_option") then
        arg <- index (split_on space line) 1 ;;
        let next_two_chars := firstn 2 arg in
        (* forbidden options: pp, profiler, trace *)
        if eqb next_two_chars (lit "pp") || eqb next_two_chars (lit "pr")
           || eqb next_two_chars (lit "tr")
        then set_option_loop path (errors ++ [(ERR_OPT, line_nr, path)]) rest
        else set_option_loop path errors rest
      else set_option_loop path errors rest
  end.

Definition set_option_check (lines : list str) (path : Path) : result (list error) :=
  set_option_loop path [] (skip_string (skip_comments (enumerate lines 1))).

Fixpoint long_lines_loop (path : Path) (errors : list error)
  (enumerate_lines : list (nat * str)) : list error :=
  match enumerate_lines with
  | [] => errors
  | (line_nr, line) :: rest =>
      if contains (lit "http") line then long_lines_loop path errors rest
      else if 101 <? List.length line
      then long_lines_loop path (errors ++ [(ERR_LIN, line_nr, path)]) rest
      else long_lines_loop path errors rest
  end.

Definition long_lines_check (lines : list str) (path : Path) : list error :=
  long_lines_loop path [] (enumerate lines 1).

(** The loop of [import_only_check]; [import_only_file] is still
    [True] while the loop runs, a [break] returns [False]. *)
Fixpoint import_only_loop (path : Path) (errors : list error)
  (enumerate_lines : list (nat * str)) : result (bool * list error) :=
  match enumerate_lines with
  | [] => Ok (true, errors)
  | (line_nr, line) :: rest =>
      let imports := split line in
      w0 <- index imports 0 ;;
      if eqb w0 (lit "--") then import_only_loop path errors rest
      else if negb (eqb w0 (lit "import")) then Ok (false, errors)
      else if 2 <? List.length imports then
        w2 <- index imports 2 ;;
        if eqb w2 (lit "--") then import_only_loop path errors rest
        else import_only_loop path (errors ++ [(ERR_IMP, line_nr, path)]) rest
      else import_only_loop path errors rest
  end.

Definition import_only_check (lines : list str) (path : Path)
  : result (bool * list error) :=
  import_only_loop path [] (skip_comments (enumerate lines 1)).

(** The locals of [regular_check]. *)
Record rc_state := {
  errors : list error;
  copy_started : bool;
  copy_done : bool;
  copy_start_line_nr : nat;
  copy_lines : str;
}.

Definition add_error (st : rc_state) (e : error) : rc_state :=
  {| errors := errors st ++ [e];
     copy_started := copy_started st;
     copy_done := copy_done st;
     copy_start_line_nr := copy_start_line_nr st;
     copy_lines := copy_lines st |}.

Definition header_incomplete (copy_lines : str) : bool :=
  negb (contains (lit "Copyright") copy_lines)
  || negb (contains (lit "Apache") copy_lines)
  || negb (contains (lit "Author") copy_lines).

(** How one iteration of a [for] loop ends: it goes on to the next
    line ([continue], or the end of the body) or leaves the loop
    ([break]). *)
Inductive flow :=
| Next (st : rc_state)
| Break (st : rc_state).

(** The body of the loop of [regular_check] on [(line_nr, line)]. *)
Definition regular_check_body (path : Path) (st : rc_state) (line_nr : nat) (line : str)
  : result flow :=
  if negb (copy_started st) && eqb line (litn "") then
    Ok (Next (add_error st (ERR_COP, copy_start_line_nr st, path)))
  else if negb (copy_started st) && eqb line (litn "/-") then
    Ok (Next {| errors := errors st; copy_started := true;
                copy_done := copy_done st; copy_start_line_nr := line_nr;
                copy_lines := copy_lines st |})
  else
    let st := if negb (copy_started st)
              then add_error st (ERR_COP, line_nr, path) else st in
    if copy_started st && negb (copy_done st) then
      let copy_lines := copy_lines st ++ line in
      if eqb line (litn "-/") then
        Ok (Next {| errors := if header_incomplete copy_lines
                              then errors st ++ [(ERR_COP, copy_start_line_nr st, path)]
                              else errors st;
                    copy_started := copy_started st; copy_done := true;
                    copy_start_line_nr := copy_start_line_nr st;
                    copy_lines := copy_lines |})
      else
        Ok (Next {| errors := errors st; copy_started := copy_started st;
                    copy_done := copy_done st;
                    copy_start_line_nr := copy_start_line_nr st;
                    copy_lines := copy_lines |})
    else if copy_done st && eqb line (litn "") then Ok (Next st)
    else
      let words := split line in
      w0 <- index words 0 ;;
      if negb (eqb w0 (lit "import")) && negb (eqb w0 (lit "/-!"))
      then Ok (Break (add_error st (ERR_MOD, line_nr, path)))
      else if eqb w0 (lit "/-!") then Ok (Break st)
      else (* final case: words[0] == "import" *)
        if 2 <? List.length words then
          w2 <- index words 2 ;;
          if negb (eqb w2 (lit "--"))
          then Ok (Next (add_error st (ERR_IMP, line_nr, path)))
          else Ok (Next st)
        else Ok (Next st).

Fixpoint regular_check_loop (path : Path) (st : rc_state)
  (enumerate_lines : list (nat * str)) : result (list error) :=
  match enumerate_lines with
  | [] => Ok (errors st)
  | (line_nr, line) :: rest =>
      f <- regular_check_body path st line_nr line ;;
      match f with
      | Next st' => regular_check_loop path st' rest
      | Break st' => Ok (errors st')
      end
  end.

Definition regular_check (lines : list str) (path : Path) : result (list error) :=
  regular_check_loop path
    {| errors := []; copy_started := false; copy_done := false;
       copy_start_line_nr := 0; copy_lines := [] |}
    (enumerate lines 1).

(** ** The reporter *)

(** What the script has printed, one entry per [print], and the global
    [new_exceptions]. *)
Record state := {
  output : list str;
  new_exceptions : bool;
}.

Definition initial : state := {| output := []; new_exceptions := false |}.

(** [(errno, path) in exceptions] *)
Definition registered (exceptions : list (errno * Path)) (errno : errno) (path : Path)
  : bool :=
  existsb (fun x => errno_eqb (fst x) errno && eqb (snd x) path) exceptions.

Definition message (e : errno) : str :=
  match e with
  | ERR_COP => lit "ERR_COP : Malformed or missing copyright header"
  | ERR_IMP => lit "ERR_IMP : More than one file imported per line"
  | ERR_MOD => lit "ERR_MOD : Module docstring missing, or too late"
  | ERR_LIN => lit "ERR_LIN : Line has more than 100 characters"
  | ERR_SAV => lit "ERR_SAV : File contains the character " ++ [small_alpha_vrachy]
  | ERR_RNT => lit "ERR_RNT : Reserved notation outside tactic.reserved_notation"
  | ERR_OPT => lit "ERR_OPT : Forbidden set_option command"
  end.

(** The line printed for one violation. *)
Definition render (e : error) : str :=
  err_path e ++ lit " : line " ++ of_nat (err_line e) ++ lit " : " ++ message (err_no e).

Fixpoint format_errors (fs : FileSystem) (exceptions : list (errno * Path))
  (errs : list error) (st : state) : state :=
  match errs with
  | [] => st
  | (errno, line_nr, path) :: rest =>
      if registered exceptions errno (resolve fs path)
      then format_errors fs exceptions rest st
      else format_errors fs exceptions rest
             {| output := output st ++ [render (errno, line_nr, path)];
                new_exceptions := true |}
  end.

(** ** The driver *)

(** [lint(path)]: the state after the call and whether it returned or
    raised. *)
Definition lint (fs : FileSystem) (exceptions : list (errno * Path)) (path : Path)
  (st : state) : state * result unit :=
  match readlines fs path with
  | Raise e => (st, Raise e)
  | Ok lines =>
      let st := format_errors fs exceptions (long_lines_check lines path) st in
      match import_only_check lines path with
      | Raise e => (st, Raise e)
      | Ok (true, errs) => (format_errors fs exceptions errs st, Ok tt)
      | Ok (false, _) =>
          match regular_check lines path with
          | Raise e => (st, Raise e)
          | Ok errs =>
              let st := format_errors fs exceptions errs st in
              let st := format_errors fs exceptions
                          (small_alpha_vrachy_check lines path) st in
              let st := format_errors fs exceptions
                          (reserved_notation_check fs lines path) st in
              match set_option_check lines path with
              | Raise e => (st, Raise e)
              | Ok errs => (format_errors fs exceptions errs st, Ok tt)
              end
          end
      end
  end.

(** [for filename in sys.argv[1:]: lint(Path(filename))] *)
Fixpoint lint_all (fs : FileSystem) (exceptions : list (errno * Path))
  (argv : list Path) (st : state) : state * result unit :=
  match argv with
  | [] => (st, Ok tt)
  | filename :: rest =>
      match lint fs exceptions filename st with
      | (st', Ok _) => lint_all fs exceptions rest st'
      | (st', Raise e) => (st', Raise e)
      end
  end.

(** The name of a violation code in the baseline. *)
Definition errno_of_name (name : str) : option errno :=
  if eqb name (lit "ERR_COP") then Some ERR_COP
  else if eqb name (lit "ERR_IMP") then Some ERR_IMP
  else if eqb name (lit "ERR_MOD") then Some ERR_MOD
  else if eqb name (lit "ERR_LIN") then Some ERR_LIN
  else if eqb name (lit "ERR_SAV") then Some ERR_SAV
  else if eqb name (lit "ERR_RNT") then Some ERR_RNT
  else if eqb name (lit "ERR_OPT") then Some ERR_OPT
  else None.

(** The loop over the lines of style-exceptions.txt that fills
    [exceptions]. *)
Fixpoint load_exceptions (fs : FileSystem) (exceptions : list (errno * Path))
  (f : list str) : result (list (errno * Path)) :=
  match f with
  | [] => Ok exceptions
  | line :: rest =>
      match split line with
      | filename :: _ :: _ :: _ :: _ :: errno :: _ =>
          let path := root_join fs filename in
          match errno_of_name errno with
          | Some e => load_exceptions fs (exceptions ++ [(e, path)]) rest
          | None => load_exceptions fs exceptions rest
          end
      | _ => Raise ValueError
      end
  end.

(** The exit status of the process once the baseline is loaded: 1 after
    an uncaught exception or [exit(1)], 0 otherwise. *)
Definition exit_status (fs : FileSystem) (exceptions : list (errno * Path))
  (argv : list Path) : Z :=
  match lint_all fs exceptions argv initial with
  | (_, Raise _) => 1%Z
  | (st, Ok _) =>
      if new_exceptions st && (0 <? List.length exceptions) then 1%Z else 0%Z
  end.

(** The whole script: what it prints and its exit status, from the
    lines of the baseline file and the command line. *)
Definition script (fs : FileSystem) (style_exceptions : list str) (argv : list Path)
  : list str * Z :=
  match load_exceptions fs [] style_exceptions with
  | Raise _ => ([], 1%Z)
  | Ok exceptions =>
      (output (fst (lint_all fs exceptions argv initial)),
       exit_status fs exceptions argv)
  end.

(** ** Concrete inputs used below *)

(** A file system in which every path is already resolved and
    [readlines] is given by [files]. *)
Definition plain_fs (files : Path -> result (list str)) : FileSystem :=
  {| resolve := fun p => p;
     root_join := fun filename => lit "/root/mathlib/" ++ filename;
     readlines := files |}.

Definition a_lean : Path := lit "src/a.lean".

(** The one-line file [import ] followed by the glyph. *)
Definition import_glyph_file : list str := [lit "import " ++ [small_alpha_vrachy; nl]].

(** A line with three quote characters: a closed literal and the start
    of a second one. *)
Definition three_quotes_line : str :=
  lit "x " ++ quote :: lit "a" ++ quote :: space :: quote :: lit "b" ++ [nl].


(** 101 characters and no line terminator: the last line of a file
    that does not end in a newline. *)
Definition unterminated_101 : str := repeat 120%N 101.


(** Line numbers at least [k] and strictly increasing, as
    [enumerate] produces them. *)
Fixpoint ascending (k : nat) (enumerate_lines : list (nat * str)) : Prop :=
  match enumerate_lines with
  | [] => True
  | (line_nr, _) :: rest => k <= line_nr /\ ascending (S line_nr) rest
  end.

(** The violations reported on a real line (line numbers start at 1). *)
Definition on_a_line (e : error) : bool := negb (err_line e =? 0).

(** The test of the line-length check on an enumerated line. *)
Definition too_long (x : nat * str) : bool :=
  negb (contains (lit "http") (snd x)) && (101 <? List.length (snd x)).

(** A violation is printed exactly when its kind and resolved path are
    not in the baseline. *)
Definition unsuppressed (fs : FileSystem) (exceptions : list (errno * Path)) (e : error)
  : bool :=
  negb (registered exceptions (err_no e) (resolve fs (err_path e))).

(** The flag [new_exceptions] is set exactly when something was
    printed. *)
Definition flag_tracks_output (st : state) : Prop :=
  new_exceptions st = true <-> output st <> [].

(** No violation twice, every line number below [k]. *)
Definition fresh (k : nat) (errs : list error) : Prop :=
  NoDup errs /\ forall e, In e errs -> err_line e < k.

(** The invariant of the loop of [regular_check] before a line
    numbered at least [k]: no violation on a real line twice, every
    line number below [k], the recorded start of the copyright block
    below [k] and 0 until the block opens, and inside the open block
    every violation before its start. *)
Definition rc_inv (k : nat) (st : rc_state) : Prop :=
  NoDup (filter on_a_line (errors st)) /\
  (forall e, In e (errors st) -> err_line e < k) /\
  copy_start_line_nr st < k /\
  (copy_started st = false -> copy_start_line_nr st = 0) /\
  (copy_started st = true -> copy_done st = false ->
   forall e, In e (errors st) -> err_line e < copy_start_line_nr st).

(** ** scripts/port_status.py *)

Module PortStatus.

(** [s.lstrip()] *)
Fixpoint lstrip (s : str) : str :=
  match s with
  | [] => []
  | c :: s' => if isspace c then lstrip s' else s
  end.

(** [stripPrefix(tag)]; [tag[n:]] is [skipn n tag]. *)
Definition stripPrefix (tag : str) : str :=
  if startswith tag (lit "No: ") then skipn 4 tag
  else if startswith tag (lit "No") then lstrip (skipn 2 tag)
  else tag.

End PortStatus.

(** ** Shapes of lines and files used in the statements below *)

(** A line that is the bare newline or has a token for [split]. *)
Definition scannable (line : str) : Prop :=
  line = litn "" \/ split line <> [].

(** A blank line, or a line whose first token is [import] and that
    imports one file (a third token, if any, is the comment marker). *)
Definition import_line (line : str) : Prop :=
  line = litn "" \/
  exists ws, split line = lit "import" :: ws /\
             (List.length ws <= 1 \/ nth_error ws 1 = Some (lit "--")).

(** A path that is one token for [split]. *)
Definition plain_path (p : Path) : Prop :=
  p <> [] /\ forallb (fun c => negb (isspace c)) p = true.

(** The line that [print] writes for a violation, as [for line in f]
    reads it back. *)
Definition printed_line (e : error) : str := render e ++ [nl].

(** A violation that the header check can report before it stops:
    ERR_COP or ERR_IMP, on the given path, at a line number up to [m]. *)
Definition header_violation (path : Path) (m : nat) (e : error) : Prop :=
  (err_no e = ERR_COP \/ err_no e = ERR_IMP) /\ err_path e = path /\ err_line e <= m.

(** The state of the header check holds only such violations and a
    start line up to [m]. *)
Definition header_state (path : Path) (m : nat) (st : rc_state) : Prop :=
  (forall e, In e (errors st) -> header_violation path m e) /\
  copy_start_line_nr st <= m.

(** From [st] to [st'] the script has only printed more and has not
    reset [new_exceptions]. *)
Definition extends (st st' : state) : Prop :=
  (exists more, output st' = output st ++ more) /\
  (new_exceptions st = true -> new_exceptions st' = true).

(** A second path, and a file system in which only [a_lean] can be
    read. *)
Definition b_lean : Path := lit "src/b.lean".

Definition only_a_lean (lines : list str) : FileSystem :=
  plain_fs (fun p => if eqb p a_lean then Ok lines else Raise OSError).

(** The state of the header check after an iteration, whether the loop
    goes on or stops. *)
Definition flow_state (f : flow) : rc_state :=
  match f with
  | Next st => st
  | Break st => st
  end.


(** * Properties *)

Arguments skip_string_step : simpl never.
Arguments regular_check_body : simpl never.

(** The embedding on small inputs. *)

Example split_import : split (litn "import a  b") = [lit "import"; lit "a"; lit "b"].
Proof. reflexivity. Qed.

Example split_on_spaces :
  split_on space (lit "a  b ") = [lit "a"; []; lit "b"; []].
Proof. reflexivity. Qed.

Example count_escaped :
  count (quote :: lit "a" ++ backslash :: quote :: [quote]) [backslash; quote] = 1.
Proof. reflexivity. Qed.

Example import_two_files :
  import_only_check [litn "import a b"] a_lean = Ok (true, [(ERR_IMP, 1, a_lean)]).
Proof. reflexivity. Qed.

Example well_formed_header :
  regular_check
    [litn "/-"; litn "Copyright (c) 2020. Released under Apache 2.0 license.";
     litn "Authors: A"; litn "-/"; litn "import x"; litn ""; litn "/-!";
     litn "# Title"; litn "-/"] a_lean
  = Ok [].
Proof. reflexivity. Qed.

Example forbidden_option :
  set_option_check [litn "set_option pp.all true"; litn "set_option old_structure_cmd true"]
    a_lean
  = Ok [(ERR_OPT, 1, a_lean)].
Proof. reflexivity. Qed.

Example report_line :
  render (ERR_LIN, 12, a_lean)
  = lit "src/a.lean : line 12 : ERR_LIN : Line has more than 100 characters".
Proof. reflexivity. Qed.

Section StrFacts.

Lemma eqb_eq (a b : str) : eqb a b = true <-> a = b.
Proof.
  revert b; induction a as [|x a IH]; intros [|y b]; simpl; split;
    try congruence; try reflexivity.
  - intros H. apply andb_true_iff in H as [Hx Ha].
    apply N.eqb_eq in Hx. apply IH in Ha. congruence.
  - intros H. injection H as -> ->. rewrite N.eqb_refl. simpl. now apply IH.
Qed.

Lemma eqb_refl (a : str) : eqb a a = true.
Proof. now apply eqb_eq. Qed.

Lemma eqb_neq (a b : str) : eqb a b = false <-> a <> b.
Proof.
  split.
  - intros H E. apply eqb_eq in E. congruence.
  - intros H. destruct (eqb a b) eqn:E; [apply eqb_eq in E; contradiction | reflexivity].
Qed.

Lemma errno_eqb_eq (a b : errno) : errno_eqb a b = true <-> a = b.
Proof.
  unfold errno_eqb. rewrite Z.eqb_eq. split; [|now intros ->].
  destruct a, b; simpl; intros H; try reflexivity; discriminate.
Qed.

(** [split] returns no token exactly on a line of whitespace. *)
Lemma split_from_nil (cur s : str) :
  split_from cur s = [] <-> cur = [] /\ forallb isspace s = true.
Proof.
  revert cur; induction s as [|c s IH]; intros cur; simpl.
  - destruct cur; split; intros H; try discriminate; auto.
    destruct H; discriminate.
  - destruct (isspace c) eqn:Hc; simpl.
    + destruct cur; [apply IH|].
      split; [intros H; discriminate H | intros [H _]; discriminate H].
    + rewrite IH. split; [intros [H _] | intros [_ H]; discriminate].
      destruct cur; discriminate.
Qed.

Lemma split_nil (s : str) : split s = [] <-> forallb isspace s = true.
Proof. unfold split. rewrite split_from_nil. tauto. Qed.

(** For a one-character pattern [count] is positive exactly when the
    character occurs. *)
Lemma count_char_zero (c : char) (s : str) :
  count s [c] = 0 <-> contains [c] s = false.
Proof.
  unfold count. induction s as [|x s IH]; simpl; [tauto|].
  destruct (N.eqb x c); simpl; [split; intros H; discriminate H | exact IH].
Qed.

End StrFacts.

Section Enumerate.

Lemma ascending_weaken (k k' : nat) (xs : list (nat * str)) :
  k' <= k -> ascending k xs -> ascending k' xs.
Proof. destruct xs as [|[n l] xs]; simpl; [trivial | intros ? [? ?]; split; [lia | assumption]]. Qed.

Lemma ascending_enumerate (lines : list str) (k : nat) : ascending k (enumerate lines k).
Proof. revert k; induction lines as [|l lines IH]; intros k; simpl; auto. Qed.

Lemma enumerate_In (lines : list str) (k n : nat) (l : str) :
  In (n, l) (enumerate lines k) <-> k <= n /\ nth_error lines (n - k) = Some l.
Proof.
  revert k; induction lines as [|h lines IH]; intros k; simpl.
  - split; [tauto | intros [_ H]; destruct (n - k); discriminate].
  - rewrite IH. split.
    + intros [E | [Hk Hn]].
      * injection E as -> ->. rewrite Nat.sub_diag. auto.
      * split; [lia|]. replace (n - k) with (S (n - S k)) by lia. exact Hn.
    + intros [Hk Hn]. destruct (n - k) as [|m] eqn:Hm.
      * left. injection Hn as ->. f_equal. lia.
      * right. split; [lia|]. replace (n - S k) with m by lia. exact Hn.
Qed.

End Enumerate.

(** ** The line-length check *)

Section LongLines.

Variable path : Path.

Lemma long_lines_loop_spec (xs : list (nat * str)) (acc : list error) :
  long_lines_loop path acc xs
  = acc ++ map (fun x => (ERR_LIN, fst x, path)) (filter too_long xs).
Proof.
  revert acc; induction xs as [|[n l] xs IH]; intros acc; simpl.
  - now rewrite app_nil_r.
  - unfold too_long at 1; simpl.
    destruct (contains (lit "http") l); simpl; [apply IH|].
    destruct (101 <? List.length l); [|apply IH].
    rewrite IH, <- app_assoc. reflexivity.
Qed.

(** Line [n] is reported exactly when it has no [http] and [len(line)],
    terminator included, exceeds 101. *)
Lemma long_lines_flagged (lines : list str) (n : nat) :
  In (ERR_LIN, n, path) (long_lines_check lines path) <->
  exists line, 1 <= n /\ nth_error lines (n - 1) = Some line /\
               contains (lit "http") line = false /\ 101 < List.length line.
Proof.
  unfold long_lines_check. rewrite long_lines_loop_spec. simpl.
  rewrite in_map_iff. split.
  - intros [[m l] [E Hin]]. injection E as ->.
    apply filter_In in Hin as [Hin Hlong].
    apply enumerate_In in Hin as [Hn Hl].
    unfold too_long in Hlong; simpl in Hlong.
    apply andb_true_iff in Hlong as [Hh Hlen].
    apply negb_true_iff in Hh. apply Nat.ltb_lt in Hlen.
    exists l. auto.
  - intros [l (Hn & Hl & Hh & Hlen)]. exists (n, l). split; [reflexivity|].
    apply filter_In. split; [apply enumerate_In; auto|].
    unfold too_long; simpl. rewrite Hh. simpl. now apply Nat.ltb_lt.
Qed.

(** On a line that ends with its terminator the threshold is 101
    characters before the terminator. *)
Lemma long_lines_terminated (lines : list str) (n : nat) (body : str) :
  1 <= n -> nth_error lines (n - 1) = Some (body ++ [nl]) ->
  contains (lit "http") (body ++ [nl]) = false ->
  (In (ERR_LIN, n, path) (long_lines_check lines path) <-> 101 <= List.length body).
Proof.
  intros Hn Hl Hh. rewrite long_lines_flagged. split.
  - intros [l (_ & Hl' & _ & Hlen)]. rewrite Hl in Hl'. injection Hl' as <-.
    rewrite length_app in Hlen. simpl in Hlen. lia.
  - intros Hlen. exists (body ++ [nl]). repeat split; auto.
    rewrite length_app. simpl. lia.
Qed.

End LongLines.

(** C4: the line-length check misses a line of 101 characters that has
    no terminator (the last line of a file without a final newline):
    the line has no [http] and 101 characters, and nothing is reported. *)
Theorem long_lines_unterminated_101 (path : Path) :
  List.length unterminated_101 = 101 /\
  contains (lit "http") unterminated_101 = false /\
  contains [nl] unterminated_101 = false /\
  long_lines_check [unterminated_101] path = [].
Proof. repeat split; reflexivity. Qed.

(** ** The forbidden-directive check *)

(** C3: on the line [set_option] with no argument the forbidden-directive
    check does not finish with a list of violations, it raises
    IndexError. *)
Theorem set_option_no_argument_raises (path : Path) :
  startswith (litn "set_option") (lit "set_option") = true /\
  contains [space] (litn "set_option") = false /\
  set_option_check [litn "set_option"] path = Raise IndexError.
Proof. repeat split; reflexivity. Qed.

(** C9: on the file whose only line is two spaces and a newline the
    import-only check and the header check both raise IndexError, and
    so does the scan of the file. *)
Theorem whitespace_line_raises (path : Path) (exceptions : list (errno * Path)) :
  forallb isspace (litn "  ") = true /\
  import_only_check [litn "  "] path = Raise IndexError /\
  regular_check [litn "  "] path = Raise IndexError /\
  lint (plain_fs (fun _ => Ok [litn "  "])) exceptions path initial
  = (initial, Raise IndexError).
Proof. repeat split; reflexivity. Qed.

(** A line of whitespace has no comment marker. *)
Lemma whitespace_no_marker (line : str) :
  forallb isspace line = true ->
  contains comment_open line = false /\ contains comment_close line = false.
Proof.
  induction line as [|c line IH]; simpl; [auto|].
  intros H. apply andb_true_iff in H as [Hc Hline].
  destruct (IH Hline) as [-> ->].
  destruct (N.eqb_spec c 47) as [-> | _]; [discriminate|].
  destruct (N.eqb_spec c 45) as [-> | _]; [discriminate|].
  auto.
Qed.

(** The same on every line of whitespace other than the bare newline. *)
Lemma import_only_whitespace_raises (path : Path) (line : str) :
  forallb isspace line = true -> line <> litn "" ->
  import_only_check [line] path = Raise IndexError.
Proof.
  intros Hws Hnl. destruct (whitespace_no_marker line Hws) as [Ho Hc].
  unfold import_only_check, skip_comments. simpl.
  rewrite Ho, Hc. apply eqb_neq in Hnl. rewrite Hnl. simpl.
  apply split_nil in Hws. rewrite Hws. reflexivity.
Qed.

(** ** String-skip mode *)

(** With the comment flag false before and after, the string flag is
    toggled exactly when [quote_test] holds, that is when the number of
    quotes minus the parity of the number of escaped quotes equals 1. *)
Lemma skip_string_toggle (in_string : bool) (line : str) :
  contains comment_open line = false ->
  fst (fst (skip_string_step (in_string, false) line))
  = if quote_test line then negb in_string else in_string.
Proof.
  intros Ho. unfold skip_string_step. rewrite Ho.
  destruct in_string; simpl.
  - destruct (quote_test line), (0 <? count line [quote]); reflexivity.
  - destruct (contains comment_close line); simpl;
      destruct (quote_test line), (0 <? count line [quote]); reflexivity.
Qed.

Lemma quote_test_spec (line : str) :
  quote_test line = true <->
  (Z.of_nat (count line [quote]) - Z.of_nat (count line [backslash; quote]) mod 2 = 1)%Z.
Proof. unfold quote_test. apply Z.eqb_eq. Qed.

(** C2: on a line with three quotes, none of them escaped, and no
    comment marker, the difference of the two counts is odd but the
    string flag is not toggled: the comment flag is false and the state
    after the line is the state before it. *)
Theorem three_quotes_no_toggle :
  count three_quotes_line [quote] = 3 /\
  count three_quotes_line [backslash; quote] = 0 /\
  Z.odd (Z.of_nat (count three_quotes_line [quote])
         - Z.of_nat (count three_quotes_line [backslash; quote])) = true /\
  skip_string_step (false, false) three_quotes_line = ((false, false), false).
Proof. repeat split; reflexivity. Qed.

(** ** The header check *)

Section Header.

Variable path : Path.

(** Inside an open copyright block every line other than the closing
    one is absorbed. *)
Lemma copyright_block_absorbs (xs : list (nat * str)) (st : rc_state) :
  copy_started st = true -> copy_done st = false ->
  (forall n l, In (n, l) xs -> l <> litn "-/") ->
  regular_check_loop path st xs = Ok (errors st).
Proof.
  revert st; induction xs as [|[n l] xs IH]; intros st Hs Hd Hxs; simpl; [reflexivity|].
  unfold regular_check_body. rewrite Hs. simpl. rewrite Hs, Hd. simpl.
  assert (El : eqb l (litn "-/") = false).
  { apply eqb_neq. apply (Hxs n). now left. }
  rewrite El. simpl. rewrite IH; simpl; auto.
  intros m k Hin. apply (Hxs m). now right.
Qed.

End Header.

(** C10: a file that opens the copyright block on its first line and
    never closes it gets no violation from the header check. *)
Theorem unclosed_copyright_no_violation (rest : list str) (path : Path) :
  (forall l, In l rest -> l <> litn "-/") ->
  regular_check (litn "/-" :: rest) path = Ok [].
Proof.
  intros Hrest. unfold regular_check. simpl.
  rewrite copyright_block_absorbs; simpl; auto.
  intros n l Hin. apply enumerate_In in Hin as [_ Hn].
  apply Hrest. eapply nth_error_In; eassumption.
Qed.

Lemma unclosed_copyright_no_violation_witness :
  regular_check [litn "/-"; litn "Copyright"; litn "import a b"; litn "theorem x"] a_lean
  = Ok [].
Proof.
  apply (unclosed_copyright_no_violation
           [litn "Copyright"; litn "import a b"; litn "theorem x"] a_lean).
  intros l [<- | [<- | [<- | []]]]; discriminate.
Defined.

(** ** The reporter *)

Section Reporter.

Variable fs : FileSystem.
Variable exceptions : list (errno * Path).

Lemma registered_In (errno : errno) (path : Path) :
  registered exceptions errno path = true <-> In (errno, path) exceptions.
Proof.
  unfold registered. rewrite existsb_exists. split.
  - intros [[e p] [Hin H]]. simpl in H. apply andb_true_iff in H as [He Hp].
    apply errno_eqb_eq in He. apply eqb_eq in Hp. now subst.
  - intros Hin. exists (errno, path). split; [assumption|]. simpl.
    apply andb_true_iff. split; [now apply errno_eqb_eq | apply eqb_refl].
Qed.

Lemma format_errors_app (a b : list error) (st : state) :
  format_errors fs exceptions (a ++ b) st
  = format_errors fs exceptions b (format_errors fs exceptions a st).
Proof.
  revert st; induction a as [|[[e n] p] a IH]; intros st; simpl; [reflexivity|].
  destruct (registered exceptions e (resolve fs p)); apply IH.
Qed.

Lemma format_errors_output (errs : list error) (st : state) :
  output (format_errors fs exceptions errs st)
  = output st ++ map render (filter (unsuppressed fs exceptions) errs).
Proof.
  revert st; induction errs as [|[[e n] p] errs IH]; intros st; simpl.
  - now rewrite app_nil_r.
  - unfold unsuppressed at 1, err_no, err_path; simpl.
    destruct (registered exceptions e (resolve fs p)); simpl; [apply IH|].
    rewrite IH. simpl. now rewrite <- app_assoc.
Qed.

Lemma format_errors_flag (errs : list error) (st : state) :
  flag_tracks_output st -> flag_tracks_output (format_errors fs exceptions errs st).
Proof.
  revert st; induction errs as [|[[e n] p] errs IH]; intros st Hst; simpl; [assumption|].
  destruct (registered exceptions e (resolve fs p)); apply IH; [assumption|].
  unfold flag_tracks_output. simpl. split; [|reflexivity].
  intros _ H. destruct (output st); discriminate.
Qed.

End Reporter.

(** C7: a violation whose kind and resolved path are in the baseline is
    never printed, whatever its line number: reporting a list of
    violations gives the same output and the same flag as reporting the
    list without it. *)
Theorem suppressed_never_rendered (fs : FileSystem) (exceptions : list (errno * Path))
  (errno : errno) (path : Path) :
  In (errno, resolve fs path) exceptions ->
  forall (line_nr : nat) (before after : list error) (st : state),
    format_errors fs exceptions (before ++ (errno, line_nr, path) :: after) st
    = format_errors fs exceptions (before ++ after) st.
Proof.
  intros Hin line_nr before after st.
  rewrite !format_errors_app. simpl.
  apply registered_In in Hin. rewrite Hin. reflexivity.
Qed.

Lemma suppressed_never_rendered_witness :
  format_errors (plain_fs (fun _ => Raise OSError)) [(ERR_LIN, a_lean)]
    ([(ERR_COP, 1, a_lean)] ++ (ERR_LIN, 7, a_lean) :: [(ERR_MOD, 9, a_lean)]) initial
  = format_errors (plain_fs (fun _ => Raise OSError)) [(ERR_LIN, a_lean)]
      ([(ERR_COP, 1, a_lean)] ++ [(ERR_MOD, 9, a_lean)]) initial.
Proof.
  apply (suppressed_never_rendered (plain_fs (fun _ => Raise OSError))
           [(ERR_LIN, a_lean)] ERR_LIN a_lean).
  simpl. left. reflexivity.
Defined.

(** ** The line filters keep the line numbers increasing *)

Section Filters.

Lemma skip_comments_loop_ascending (xs : list (nat * str)) (k : nat) (in_comment : bool) :
  ascending k xs -> ascending k (skip_comments_loop in_comment xs).
Proof.
  revert k in_comment; induction xs as [|[n l] xs IH]; intros k c; simpl; [trivial|].
  intros [Hk Hasc].
  assert (Hrest : forall c', ascending k (skip_comments_loop c' xs)).
  { intros c'. apply ascending_weaken with (S n); [lia | now apply IH]. }
  destruct (contains comment_close l); [apply Hrest|].
  destruct (eqb l (litn "") || (if contains comment_open l then true else c));
    [apply Hrest|].
  simpl. split; [assumption | now apply IH].
Qed.

Lemma skip_string_loop_ascending (xs : list (nat * str)) (k : nat) (st : bool * bool) :
  ascending k xs -> ascending k (skip_string_loop st xs).
Proof.
  revert k st; induction xs as [|[n l] xs IH]; intros k st; simpl; [trivial|].
  intros [Hk Hasc].
  destruct (skip_string_step st l) as [st' yielded].
  destruct yielded; simpl.
  - split; [assumption | now apply IH].
  - apply ascending_weaken with (S n); [lia | now apply IH].
Qed.

Lemma skip_comments_ascending (lines : list str) :
  ascending 1 (skip_comments (enumerate lines 1)).
Proof. apply skip_comments_loop_ascending, ascending_enumerate. Qed.

Lemma skip_string_ascending (lines : list str) :
  ascending 1 (skip_string (skip_comments (enumerate lines 1))).
Proof. apply skip_string_loop_ascending, skip_comments_ascending. Qed.

End Filters.

(** ** The import-only check *)

Section ImportOnly.

Variable path : Path.

(** An invariant [I k errors] of the loop of [import_only_check],
    where [k] bounds the line numbers seen so far: it holds on return
    when it is kept by adding an ERR_IMP violation at a later line. *)
Lemma import_only_loop_inv (I : nat -> list error -> Prop) :
  (forall k acc n, I k acc -> k <= n -> I (S n) (acc ++ [(ERR_IMP, n, path)])) ->
  (forall k k' acc, I k acc -> k <= k' -> I k' acc) ->
  forall xs k acc b errs,
    ascending k xs -> I k acc ->
    import_only_loop path acc xs = Ok (b, errs) ->
    exists k', I k' errs.
Proof.
  intros Hadd Hmono xs; induction xs as [|[n l] xs IH]; intros k acc b errs Hasc Hacc; simpl.
  - intros E. injection E as _ <-. eauto.
  - destruct Hasc as [Hk Hasc].
    assert (Hnext : I (S n) acc) by (apply Hmono with k; [assumption | lia]).
    destruct (index (split l) 0) as [w0|]; simpl; [|discriminate].
    destruct (eqb w0 (lit "--")); [now apply IH with (S n)|].
    destruct (eqb w0 (lit "import")); simpl;
      [|intros E; injection E as _ <-; eauto].
    destruct (2 <? List.length (split l)); [|now apply IH with (S n)].
    destruct (index (split l) 2) as [w2|]; simpl; [|discriminate].
    destruct (eqb w2 (lit "--")); [now apply IH with (S n)|].
    apply IH with (S n); [assumption|]. now apply Hadd with k.
Qed.

Lemma import_only_check_kinds (lines : list str) (b : bool) (errs : list error) :
  import_only_check lines path = Ok (b, errs) ->
  forall e, In e errs -> err_no e = ERR_IMP.
Proof.
  intros H.
  destruct (import_only_loop_inv
              (fun _ acc => forall e, In e acc -> err_no e = ERR_IMP)) with
    (xs := skip_comments (enumerate lines 1)) (k := 1) (acc := @nil error)
    (b := b) (errs := errs) as [_ Hk]; auto.
  - intros k acc n Hacc _ e Hin. apply in_app_iff in Hin as [Hin | [<- | []]]; auto.
  - apply skip_comments_ascending.
  - intros e [].
Qed.

End ImportOnly.

(** ** The driver *)

Lemma long_lines_check_kinds (lines : list str) (path : Path) (e : error) :
  In e (long_lines_check lines path) -> err_no e = ERR_LIN.
Proof.
  unfold long_lines_check. rewrite long_lines_loop_spec. simpl.
  rewrite in_map_iff. intros [x [<- _]]. reflexivity.
Qed.

(** C1 (as the driver does it): on a file that the import-only check
    classifies as import-only, [lint] reports the violations of the
    line-length check and then those of the import-only check, and
    returns; every violation it reports is an ERR_LIN or an ERR_IMP, so
    no header, forbidden-character, reserved-notation or
    forbidden-directive violation is reported for that file. *)
Theorem lint_import_only (fs : FileSystem) (exceptions : list (errno * Path))
  (path : Path) (lines : list str) (errs : list error) (st : state) :
  readlines fs path = Ok lines ->
  import_only_check lines path = Ok (true, errs) ->
  lint fs exceptions path st
  = (format_errors fs exceptions (long_lines_check lines path ++ errs) st, Ok tt)
  /\ forall e, In e (long_lines_check lines path ++ errs) ->
               err_no e = ERR_LIN \/ err_no e = ERR_IMP.
Proof.
  intros Hread Himp. split.
  - unfold lint. rewrite Hread, Himp. now rewrite format_errors_app.
  - intros e Hin. apply in_app_iff in Hin as [Hin | Hin].
    + left. eapply long_lines_check_kinds; eassumption.
    + right. eapply import_only_check_kinds; eassumption.
Qed.

Lemma lint_import_only_witness :
  lint (plain_fs (fun _ => Ok import_glyph_file)) [] a_lean initial
  = (format_errors (plain_fs (fun _ => Ok import_glyph_file)) []
       (long_lines_check import_glyph_file a_lean ++ []) initial, Ok tt)
  /\ forall e, In e (long_lines_check import_glyph_file a_lean ++ []) ->
               err_no e = ERR_LIN \/ err_no e = ERR_IMP.
Proof.
  apply (lint_import_only (plain_fs (fun _ => Ok import_glyph_file)) [] a_lean
           import_glyph_file [] initial); reflexivity.
Defined.

(** C1 fails as stated: the file [import_glyph_file] is import-only,
    the forbidden-character check finds a violation on its line 1 that
    the empty baseline does not suppress, and [lint] prints nothing. *)
Lemma import_only_glyph_not_reported :
  import_only_check import_glyph_file a_lean = Ok (true, []) /\
  small_alpha_vrachy_check import_glyph_file a_lean = [(ERR_SAV, 1, a_lean)] /\
  unsuppressed (plain_fs (fun _ => Ok import_glyph_file)) [] (ERR_SAV, 1, a_lean) = true /\
  lint (plain_fs (fun _ => Ok import_glyph_file)) [] a_lean initial = (initial, Ok tt).
Proof. repeat split; reflexivity. Qed.

Section Driver.

Variable fs : FileSystem.
Variable exceptions : list (errno * Path).

Lemma lint_flag (path : Path) (st st' : state) (r : result unit) :
  flag_tracks_output st -> lint fs exceptions path st = (st', r) ->
  flag_tracks_output st'.
Proof.
  intros Hst. unfold lint.
  destruct (readlines fs path) as [lines|e]; [|intros E; injection E as <- _; assumption].
  destruct (import_only_check lines path) as [[[] errs]|e].
  - intros E; injection E as <- _. now repeat apply format_errors_flag.
  - destruct (regular_check lines path) as [errs'|e].
    + destruct (set_option_check lines path) as [errs''|e];
        intros E; injection E as <- _; now repeat apply format_errors_flag.
    + intros E; injection E as <- _. now apply format_errors_flag.
  - intros E; injection E as <- _. now apply format_errors_flag.
Qed.

Lemma lint_all_flag (argv : list Path) (st st' : state) (r : result unit) :
  flag_tracks_output st -> lint_all fs exceptions argv st = (st', r) ->
  flag_tracks_output st'.
Proof.
  revert st; induction argv as [|p argv IH]; intros st Hst; simpl.
  - intros E; injection E as <- _. assumption.
  - destruct (lint fs exceptions p st) as [st1 [u|e]] eqn:El.
    + apply IH. eapply lint_flag; eassumption.
    + intros E; injection E as <- _. eapply lint_flag; eassumption.
Qed.

Lemma initial_flag : flag_tracks_output initial.
Proof. unfold flag_tracks_output; simpl. split; [discriminate | congruence]. Qed.

Lemma lint_unreadable (path : Path) (e : exn) (st : state) :
  readlines fs path = Raise e -> lint fs exceptions path st = (st, Raise e).
Proof. intros H. unfold lint. now rewrite H. Qed.

(** A run over a command line that names a file that cannot be read
    ends with an exception: at that file, or at an earlier one. *)
Lemma lint_all_unreadable (argv : list Path) (path : Path) (e : exn) (st : state) :
  In path argv -> readlines fs path = Raise e ->
  exists st' e', lint_all fs exceptions argv st = (st', Raise e').
Proof.
  revert st; induction argv as [|p argv IH]; intros st Hin Hread; [destruct Hin|].
  simpl. destruct (lint fs exceptions p st) as [st1 [u|e1]] eqn:El; [|eauto].
  destruct Hin as [-> | Hin]; [|now apply IH].
  rewrite (lint_unreadable path e st Hread) in El. discriminate El.
Qed.

End Driver.

(** C8 (for runs that reach the end of the script): when every file was
    linted without an exception, the exit status is non-zero exactly
    when something was printed, that is a violation not in the baseline
    was found, and the baseline is non-empty; a file of the command line
    that cannot be read ends the run with status 1 whatever the baseline
    and wherever the file stands on the command line. *)
Theorem exit_status_spec (fs : FileSystem) (exceptions : list (errno * Path))
  (argv : list Path) :
  (forall st, lint_all fs exceptions argv initial = (st, Ok tt) ->
     (exit_status fs exceptions argv <> 0%Z <-> output st <> [] /\ exceptions <> []))
  /\ (forall path e, In path argv -> readlines fs path = Raise e ->
        exit_status fs exceptions argv = 1%Z).
Proof.
  split.
  - intros st Hrun. unfold exit_status. rewrite Hrun.
    assert (Hflag : flag_tracks_output st).
    { eapply lint_all_flag; [apply initial_flag | eassumption]. }
    unfold flag_tracks_output in Hflag.
    destruct (new_exceptions st); simpl.
    + destruct exceptions as [|x xs]; simpl.
      * split; [congruence | intros [_ H]; congruence].
      * split; [intros _ | discriminate].
        split; [now apply Hflag | discriminate].
    + split; [congruence|]. intros [H _]. apply Hflag in H. discriminate.
  - intros path e Hin Hread. unfold exit_status.
    destruct (lint_all_unreadable fs exceptions argv path e initial Hin Hread)
      as (st' & e' & ->).
    reflexivity.
Qed.

Lemma exit_status_spec_witness :
  (exit_status (plain_fs (fun _ => Ok [litn "import a b"])) [(ERR_LIN, a_lean)] [a_lean]
     <> 0%Z
   <-> output (fst (lint_all (plain_fs (fun _ => Ok [litn "import a b"]))
                      [(ERR_LIN, a_lean)] [a_lean] initial)) <> []
       /\ [(ERR_LIN, a_lean)] <> [])
  /\ exit_status (only_a_lean [litn "import a"]) [] [a_lean; b_lean] = 1%Z.
Proof.
  split.
  - apply (proj1 (exit_status_spec (plain_fs (fun _ => Ok [litn "import a b"]))
                    [(ERR_LIN, a_lean)] [a_lean])).
    reflexivity.
  - apply (proj2 (exit_status_spec (only_a_lean [litn "import a"]) [] [a_lean; b_lean])
             b_lean OSError).
    + simpl. right. left. reflexivity.
    + reflexivity.
Defined.

(** C8 fails as stated: with an empty baseline and a path that cannot
    be read, no violation is found and the process exits with status 1. *)
Lemma unreadable_file_exit_status :
  load_exceptions (plain_fs (fun _ => Raise OSError)) [] [] = Ok [] /\
  lint_all (plain_fs (fun _ => Raise OSError)) [] [a_lean] initial
  = (initial, Raise OSError) /\
  exit_status (plain_fs (fun _ => Raise OSError)) [] [a_lean] = 1%Z /\
  script (plain_fs (fun _ => Raise OSError)) [] [a_lean] = ([], 1%Z).
Proof. repeat split; reflexivity. Qed.

(** ** The forbidden-character check *)

Section ForbiddenCharacter.

Variable path : Path.

(** Comment-skip mode yields no line with a comment marker. *)
Lemma skip_comments_loop_In (xs : list (nat * str)) (in_comment : bool) (k : nat) (l : str) :
  In (k, l) (skip_comments_loop in_comment xs) ->
  In (k, l) xs /\ contains comment_open l = false /\ contains comment_close l = false.
Proof.
  revert in_comment; induction xs as [|[n h] xs IH]; intros c; simpl; [tauto|].
  destruct (contains comment_close h) eqn:Hc.
  { intros H. apply IH in H. tauto. }
  destruct (contains comment_open h) eqn:Ho.
  { rewrite orb_true_r. intros H. apply IH in H. tauto. }
  destruct (eqb h (litn "") || c).
  { intros H. apply IH in H. tauto. }
  intros [E | H].
  - injection E as <- <-. auto.
  - apply IH in H. tauto.
Qed.

(** On a line without comment markers, read with the comment flag
    false, string-skip mode keeps the comment flag false and yields the
    line only if it has no quote character. *)
Lemma skip_string_step_no_marker (in_string : bool) (l : str) :
  contains comment_open l = false -> contains comment_close l = false ->
  exists in_string',
    skip_string_step (in_string, false) l
    = ((in_string', false), negb (0 <? count l [quote]) && negb in_string').
Proof.
  intros Ho Hc. unfold skip_string_step. rewrite Ho, Hc.
  exists (if quote_test l then negb in_string else in_string).
  destruct in_string; simpl;
    destruct (0 <? count l [quote]); simpl; try reflexivity;
    destruct (quote_test l); reflexivity.
Qed.

Lemma skip_string_loop_In (xs : list (nat * str)) (in_string : bool) (k : nat) (l : str) :
  (forall n h, In (n, h) xs ->
     contains comment_open h = false /\ contains comment_close h = false) ->
  In (k, l) (skip_string_loop (in_string, false) xs) ->
  In (k, l) xs /\ count l [quote] = 0.
Proof.
  revert in_string; induction xs as [|[n h] xs IH]; intros s Hxs; simpl; [tauto|].
  destruct (Hxs n h) as [Ho Hc]; [now left|].
  destruct (skip_string_step_no_marker s h Ho Hc) as [s' ->].
  assert (Hrest : In (k, l) (skip_string_loop (s', false) xs) ->
                  In (k, l) xs /\ count l [quote] = 0).
  { apply IH. intros m g Hin. apply (Hxs m g). now right. }
  destruct (0 <? count h [quote]) eqn:Hq; simpl; [tauto|].
  destruct s'; simpl; [tauto|].
  intros [E | H]; [|tauto].
  injection E as <- <-. apply Nat.ltb_ge in Hq. split; [now left | lia].
Qed.

Lemma small_alpha_vrachy_loop_spec (xs : list (nat * str)) (acc : list error) :
  small_alpha_vrachy_loop path acc xs
  = acc ++ map (fun x => (ERR_SAV, fst x, path))
             (filter (fun x => contains [small_alpha_vrachy] (snd x)) xs).
Proof.
  revert acc; induction xs as [|[n l] xs IH]; intros acc; simpl.
  - now rewrite app_nil_r.
  - destruct (contains [small_alpha_vrachy] l); [|apply IH].
    rewrite IH, <- app_assoc. reflexivity.
Qed.


Lemma quote_test_no_quote (l : str) : count l [quote] = 0 -> quote_test l = false.
Proof.
  intros H. unfold quote_test. rewrite H. apply Z.eqb_neq.
  pose proof (Z.mod_pos_bound (Z.of_nat (count l [backslash; quote])) 2). lia.
Qed.

Lemma skip_string_step_clean (l : str) :
  count l [quote] = 0 ->
  contains comment_open l = false -> contains comment_close l = false ->
  skip_string_step (false, false) l = ((false, false), true).
Proof.
  intros Hq Ho Hc. unfold skip_string_step. rewrite Ho, Hc. simpl.
  rewrite (quote_test_no_quote l Hq), Hq. reflexivity.
Qed.

(** A line with the glyph passes both filters when no line up to it
    has a quote character or a comment marker. *)
Lemma clean_prefix_yielded (lines : list str) (k n : nat) (line : str) :
  nth_error lines n = Some line ->
  contains [small_alpha_vrachy] line = true ->
  (forall l, In l (firstn (S n) lines) ->
     count l [quote] = 0 /\ contains comment_open l = false
     /\ contains comment_close l = false) ->
  In (k + n, line)
     (skip_string_loop (false, false) (skip_comments_loop false (enumerate lines k))).
Proof.
  revert k n; induction lines as [|h lines IH]; intros k n Hn Hg Hclean.
  - destruct n; discriminate.
  - destruct (Hclean h) as (Hq & Ho & Hc); [now left|].
    simpl. rewrite Ho, Hc. destruct n as [|m]; simpl in Hn.
    + injection Hn as ->.
      assert (Hnl : eqb line (litn "") = false).
      { apply eqb_neq. intros ->. discriminate. }
      rewrite Hnl. simpl. rewrite (skip_string_step_clean line Hq Ho Hc).
      left. f_equal. lia.
    + assert (Hrec : In (k + S m, line)
                       (skip_string_loop (false, false)
                          (skip_comments_loop false (enumerate lines (S k))))).
      { replace (k + S m) with (S k + m) by lia. apply IH; auto.
        intros l Hl. apply Hclean. now right. }
      destruct (eqb h (litn "")); simpl; [exact Hrec|].
      rewrite (skip_string_step_clean h Hq Ho Hc). now right.
Qed.

End ForbiddenCharacter.

Section ClosedLiterals.





End ClosedLiterals.




(** ** No violation is reported twice *)

Section NoRepeat.

Variable path : Path.

Lemma fresh_add (k n : nat) (acc : list error) (c : errno) :
  fresh k acc -> k <= n -> fresh (S n) (acc ++ [(c, n, path)]).
Proof.
  intros [Hnd Hlt] Hk. split.
  - apply NoDup_app; [assumption | repeat constructor; intros [] |].
    intros e Hin [<- | []]. apply Hlt in Hin. unfold err_line in Hin. simpl in Hin. lia.
  - intros e Hin. apply in_app_iff in Hin as [Hin | [<- | []]].
    + apply Hlt in Hin. lia.
    + unfold err_line. simpl. lia.
Qed.

Lemma fresh_mono (k k' : nat) (acc : list error) :
  fresh k acc -> k <= k' -> fresh k' acc.
Proof.
  intros [Hnd Hlt] Hk. split; [assumption|].
  intros e Hin. apply Hlt in Hin. lia.
Qed.

Lemma fresh_nil (k : nat) : fresh k [].
Proof. split; [constructor | intros e []]. Qed.

(** A loop that reports at most the current line keeps its violations
    distinct. *)
Lemma ascending_map_filter_fresh (c : errno) (g : nat * str -> bool)
  (xs : list (nat * str)) (k : nat) (acc : list error) :
  ascending k xs -> fresh k acc ->
  NoDup (acc ++ map (fun x => (c, fst x, path)) (filter g xs)).
Proof.
  revert k acc; induction xs as [|[n l] xs IH]; intros k acc; simpl.
  - intros _ [Hnd _]. now rewrite app_nil_r.
  - intros [Hk Hasc] Hacc. destruct (g (n, l)); simpl.
    + change (acc ++ (c, n, path) :: ?t) with (acc ++ [(c, n, path)] ++ t).
      rewrite app_assoc. apply IH with (S n); [assumption | now apply fresh_add with k].
    + apply IH with (S n); [assumption|]. apply fresh_mono with k; [assumption | lia].
Qed.

Lemma long_lines_check_NoDup (lines : list str) :
  NoDup (long_lines_check lines path).
Proof.
  unfold long_lines_check. rewrite long_lines_loop_spec.
  apply ascending_map_filter_fresh with 1; [apply ascending_enumerate | apply fresh_nil].
Qed.

Lemma small_alpha_vrachy_check_NoDup (lines : list str) :
  NoDup (small_alpha_vrachy_check lines path).
Proof.
  unfold small_alpha_vrachy_check. rewrite small_alpha_vrachy_loop_spec.
  apply ascending_map_filter_fresh with 1; [apply skip_string_ascending | apply fresh_nil].
Qed.

Lemma reserved_notation_loop_spec (xs : list (nat * str)) (acc : list error) :
  reserved_notation_loop path acc xs
  = acc ++ map (fun x => (ERR_RNT, fst x, path))
             (filter (fun x => startswith (snd x) (lit "reserve")
                               || startswith (snd x) (lit "precedence")) xs).
Proof.
  revert acc; induction xs as [|[n l] xs IH]; intros acc; cbn [reserved_notation_loop].
  - simpl. now rewrite app_nil_r.
  - cbn [filter snd].
    destruct (startswith l (lit "reserve") || startswith l (lit "precedence"));
      [|apply IH].
    rewrite IH, <- app_assoc. reflexivity.
Qed.

Lemma reserved_notation_check_NoDup (fs : FileSystem) (lines : list str) :
  NoDup (reserved_notation_check fs lines path).
Proof.
  unfold reserved_notation_check.
  destruct (eqb (resolve fs path) (RESERVED_NOTATION fs)); [constructor|].
  rewrite reserved_notation_loop_spec.
  apply ascending_map_filter_fresh with 1; [apply skip_string_ascending | apply fresh_nil].
Qed.

Lemma set_option_loop_fresh (xs : list (nat * str)) (k : nat) (acc errs : list error) :
  ascending k xs -> fresh k acc ->
  set_option_loop path acc xs = Ok errs -> NoDup errs.
Proof.
  revert k acc; induction xs as [|[n l] xs IH]; intros k acc; cbn [set_option_loop].
  - intros _ [Hnd _] E. injection E as <-. assumption.
  - intros [Hk Hasc] Hacc.
    assert (Hnext : fresh (S n) acc) by (apply fresh_mono with k; [assumption | lia]).
    destruct (startswith l (lit "set_option")); [|now apply IH with (S n)].
    destruct (index (split_on space l) 1) as [arg|]; simpl; [|discriminate].
    match goal with |- context [if ?b then _ else _] => destruct b end.
    + apply IH with (S n); [assumption | now apply fresh_add with k].
    + now apply IH with (S n).
Qed.

Lemma set_option_check_NoDup (lines : list str) (errs : list error) :
  set_option_check lines path = Ok errs -> NoDup errs.
Proof.
  apply set_option_loop_fresh with 1; [apply skip_string_ascending | apply fresh_nil].
Qed.

Lemma import_only_check_NoDup (lines : list str) (b : bool) (errs : list error) :
  import_only_check lines path = Ok (b, errs) -> NoDup errs.
Proof.
  intros H.
  destruct (import_only_loop_inv path fresh) with
    (xs := skip_comments (enumerate lines 1)) (k := 1) (acc := @nil error)
    (b := b) (errs := errs) as [k [Hnd _]]; auto.
  - intros k acc n Hacc Hk. now apply fresh_add with k.
  - intros k k' acc. apply fresh_mono.
  - apply skip_comments_ascending.
  - apply fresh_nil.
Qed.

End NoRepeat.

Section HeaderNoRepeat.

Variable path : Path.

Lemma rc_inv_mono (k k' : nat) (st : rc_state) :
  rc_inv k st -> k <= k' -> rc_inv k' st.
Proof.
  intros (Hnd & Hlt & Hcs & Hns & Hopen) Hk. repeat split; auto; try lia.
  intros e Hin. apply Hlt in Hin. lia.
Qed.

(** Outside the open copyright block, violations on the current line
    can be added. *)
Lemma rc_inv_extend (k n : nat) (st st' : rc_state) (news : list error) :
  rc_inv k st -> k <= n ->
  copy_started st && negb (copy_done st) = false ->
  errors st' = errors st ++ news ->
  copy_started st' = copy_started st -> copy_done st' = copy_done st ->
  copy_start_line_nr st' = copy_start_line_nr st ->
  NoDup news -> (forall e, In e news -> err_line e = n) ->
  rc_inv (S n) st'.
Proof.
  intros (Hnd & Hlt & Hcs & Hns & Hopen) Hk Hout He Hs Hd Hc Hnews Hline.
  unfold rc_inv. rewrite He, Hs, Hd, Hc. repeat split.
  - rewrite filter_app. apply NoDup_app; [assumption | now apply NoDup_filter |].
    intros e Hin Hin'. apply filter_In in Hin as [Hin _].
    apply filter_In in Hin' as [Hin' _].
    apply Hlt in Hin. apply Hline in Hin'. lia.
  - intros e Hin. apply in_app_iff in Hin as [Hin | Hin].
    + apply Hlt in Hin. lia.
    + apply Hline in Hin. lia.
  - lia.
  - assumption.
  - intros Hst Hdn. rewrite Hst, Hdn in Hout. discriminate.
Qed.

Ltac rc_extend bound added :=
  eapply rc_inv_extend with (k := bound) (news := added);
  [ eassumption | assumption | eassumption
  | simpl; rewrite <- ?app_assoc; try rewrite app_nil_r; reflexivity
  | reflexivity | reflexivity | reflexivity
  | repeat constructor; simpl; intuition discriminate
  | simpl; intros ? Hin_news; repeat destruct Hin_news as [<- | Hin_news];
    try reflexivity; contradiction ].

(** One iteration of the loop keeps the invariant. *)
Lemma regular_check_body_inv (k n : nat) (st : rc_state) (l : str) (f : flow) :
  rc_inv k st -> k <= n ->
  regular_check_body path st n l = Ok f ->
  rc_inv (S n) match f with Next st' => st' | Break st' => st' end.
Proof.
  intros Hinv Hk. unfold regular_check_body. cbv zeta.
  destruct (copy_started st) eqn:Hs; cbn [negb andb]; rewrite ?Hs; cbn [negb andb].
  - (* the copyright block has been opened *)
    destruct (copy_done st) eqn:Hd; cbn [negb andb].
    + (* and closed *)
      assert (Hout : copy_started st && negb (copy_done st) = false)
        by (rewrite Hs, Hd; reflexivity).
      destruct (eqb l (litn "")); [intros E; injection E as <-;
                                   apply rc_inv_mono with k; [assumption | lia]|].
      destruct (index (split l) 0) as [w0|]; cbn [bind]; [|discriminate].
      destruct (negb (eqb w0 (lit "import")) && negb (eqb w0 (lit "/-!"))).
      { intros E; injection E as <-. rc_extend k [(ERR_MOD, n, path)]. }
      destruct (eqb w0 (lit "/-!")).
      { intros E; injection E as <-. apply rc_inv_mono with k; [assumption | lia]. }
      destruct (2 <? List.length (split l)).
      * destruct (index (split l) 2) as [w2|]; cbn [bind]; [|discriminate].
        destruct (negb (eqb w2 (lit "--"))); intros E; injection E as <-.
        -- rc_extend k [(ERR_IMP, n, path)].
        -- apply rc_inv_mono with k; [assumption | lia].
      * intros E; injection E as <-. apply rc_inv_mono with k; [assumption | lia].
    + (* and is still open *)
      destruct Hinv as (Hnd & Hlt & Hcs & Hns & Hopen).
      specialize (Hopen Hs Hd).
      destruct (eqb l (litn "-/")); intros E; injection E as <-;
        unfold rc_inv; simpl; rewrite ?Hs, ?Hd.
      * destruct (header_incomplete (copy_lines st ++ l)).
        -- repeat split; try congruence; try lia.
           ++ rewrite filter_app. apply NoDup_app;
                [assumption | apply NoDup_filter; repeat constructor; intros [] |].
              intros e Hin Hin'. apply filter_In in Hin as [Hin _].
              apply filter_In in Hin' as [[<- | []] _].
              apply Hopen in Hin. unfold err_line in Hin. simpl in Hin. lia.
           ++ intros e Hin. apply in_app_iff in Hin as [Hin | [<- | []]].
              ** apply Hlt in Hin. lia.
              ** unfold err_line. simpl. lia.
        -- repeat split; try congruence; try lia.
           intros e Hin. apply Hlt in Hin. lia.
      * repeat split; try congruence; try lia; auto.
        intros e Hin. apply Hlt in Hin. lia.
  - (* the copyright block has not been opened *)
    assert (Hout : copy_started st && negb (copy_done st) = false)
      by (rewrite Hs; reflexivity).
    pose proof Hinv as (Hnd & Hlt & Hcs & Hns & Hopen).
    destruct (eqb l (litn "")).
    { intros E; injection E as <-.
      apply rc_inv_mono with k; [|lia].
      unfold rc_inv, add_error; simpl. rewrite Hs. repeat split; auto; try discriminate.
      - rewrite filter_app. simpl. unfold on_a_line at 2, err_line. simpl.
        rewrite (Hns Hs). simpl. now rewrite app_nil_r.
      - intros e Hin. apply in_app_iff in Hin as [Hin | [<- | []]]; auto. }
    destruct (eqb l (litn "/-")).
    { intros E; injection E as <-. unfold rc_inv; simpl.
      repeat split; auto; try discriminate.
      - intros e Hin. apply Hlt in Hin. lia.
      - intros _ _ e Hin. apply Hlt in Hin. lia. }
    cbn [add_error copy_started copy_done]. rewrite Hs. cbn [negb andb].
    rewrite andb_false_r.
    destruct (index (split l) 0) as [w0|]; cbn [bind]; [|discriminate].
    destruct (negb (eqb w0 (lit "import")) && negb (eqb w0 (lit "/-!"))).
    { intros E; injection E as <-.
      rc_extend k [(ERR_COP, n, path); (ERR_MOD, n, path)]. }
    destruct (eqb w0 (lit "/-!")).
    { intros E; injection E as <-. rc_extend k [(ERR_COP, n, path)]. }
    destruct (2 <? List.length (split l)).
    + destruct (index (split l) 2) as [w2|]; cbn [bind]; [|discriminate].
      destruct (negb (eqb w2 (lit "--"))); intros E; injection E as <-.
      * rc_extend k [(ERR_COP, n, path); (ERR_IMP, n, path)].
      * rc_extend k [(ERR_COP, n, path)].
    + intros E; injection E as <-. rc_extend k [(ERR_COP, n, path)].
Qed.

Lemma regular_check_loop_inv (xs : list (nat * str)) (k : nat) (st : rc_state)
  (errs : list error) :
  ascending k xs -> rc_inv k st ->
  regular_check_loop path st xs = Ok errs ->
  NoDup (filter on_a_line errs).
Proof.
  revert k st; induction xs as [|[n l] xs IH]; intros k st; cbn [regular_check_loop].
  - intros _ (Hnd & _) E. injection E as <-. assumption.
  - intros [Hk Hasc] Hinv.
    destruct (regular_check_body path st n l) as [f|] eqn:Hbody; cbn [bind]; [|discriminate].
    pose proof (regular_check_body_inv k n st l f Hinv Hk Hbody) as Hnext.
    destruct f as [st'|st'].
    + now apply IH with (S n).
    + intros E. injection E as <-. apply Hnext.
Qed.

Lemma regular_check_NoDup (lines : list str) (errs : list error) :
  regular_check lines path = Ok errs -> NoDup (filter on_a_line errs).
Proof.
  apply regular_check_loop_inv with 1; [apply ascending_enumerate|].
  unfold rc_inv; simpl. repeat split; auto.
  - constructor.
  - intros e [].
  - discriminate.
Qed.

End HeaderNoRepeat.

(** Before the copyright block opens, every blank line adds the
    violation [(ERR_COP, 0, path)]. *)
Lemma regular_check_loop_blank (path : Path) (m k : nat) (st : rc_state) :
  copy_started st = false ->
  regular_check_loop path st (enumerate (repeat (litn "") m) k)
  = Ok (errors st ++ repeat (ERR_COP, copy_start_line_nr st, path) m).
Proof.
  revert k st; induction m as [|m IH]; intros k st Hs; simpl.
  - now rewrite app_nil_r.
  - unfold regular_check_body. rewrite Hs. simpl.
    rewrite IH; [|assumption]. simpl. now rewrite <- app_assoc.
Qed.

Section HeaderAppends.

Variable path : Path.

(** One iteration only appends to [errors]: violations at the current
    line, or an ERR_COP at the recorded start line. *)
Lemma regular_check_body_appends (st : rc_state) (n : nat) (l : str) (f : flow) :
  regular_check_body path st n l = Ok f ->
  exists new, errors (flow_state f) = errors st ++ new /\
    forall e, In e new ->
      e = (ERR_COP, copy_start_line_nr st, path) \/ err_line e = n.
Proof.
  assert (Hnone : exists new : list error, errors st = errors st ++ new /\
            forall e, In e new ->
              e = (ERR_COP, copy_start_line_nr st, path) \/ err_line e = n).
  { exists []. rewrite app_nil_r. split; [reflexivity | intros e []]. }
  assert (Hone : forall x,
            x = (ERR_COP, copy_start_line_nr st, path) \/ err_line x = n ->
            exists new : list error,
              errors st ++ [x] = errors st ++ new /\
              forall e, In e new ->
                e = (ERR_COP, copy_start_line_nr st, path) \/ err_line e = n).
  { intros x Hx. exists [x]. split; [reflexivity | intros e [<- | []]; exact Hx]. }
  assert (Htwo : forall x, err_line x = n ->
            exists new : list error,
              (errors st ++ [(ERR_COP, n, path)]) ++ [x] = errors st ++ new /\
              forall e, In e new ->
                e = (ERR_COP, copy_start_line_nr st, path) \/ err_line e = n).
  { intros x Hx. exists [(ERR_COP, n, path); x]. rewrite <- app_assoc.
    split; [reflexivity | intros e [<- | [<- | []]]; right; [reflexivity | exact Hx]]. }
  unfold regular_check_body. cbv zeta.
  destruct (copy_started st) eqn:Hs; cbn [negb andb]; rewrite ?Hs; cbn [negb andb].
  - destruct (copy_done st) eqn:Hd; cbn [negb andb].
    + destruct (eqb l (litn "")); [intros E; injection E as <-; exact Hnone|].
      destruct (index (split l) 0) as [w0|]; cbn [bind]; [|discriminate].
      destruct (negb (eqb w0 (lit "import")) && negb (eqb w0 (lit "/-!"))).
      { intros E; injection E as <-. apply Hone. now right. }
      destruct (eqb w0 (lit "/-!")); [intros E; injection E as <-; exact Hnone|].
      destruct (2 <? List.length (split l)); [|intros E; injection E as <-; exact Hnone].
      destruct (index (split l) 2) as [w2|]; cbn [bind]; [|discriminate].
      destruct (negb (eqb w2 (lit "--"))); intros E; injection E as <-; [|exact Hnone].
      apply Hone. now right.
    + destruct (eqb l (litn "-/")); intros E; injection E as <-; simpl; [|exact Hnone].
      destruct (header_incomplete (copy_lines st ++ l)); [|exact Hnone].
      apply Hone. now left.
  - destruct (eqb l (litn "")).
    { intros E; injection E as <-. apply Hone. now left. }
    destruct (eqb l (litn "/-")); [intros E; injection E as <-; exact Hnone|].
    cbn [add_error copy_started copy_done]. rewrite Hs. cbn [negb andb].
    rewrite andb_false_r.
    destruct (index (split l) 0) as [w0|]; cbn [bind]; [|discriminate].
    destruct (negb (eqb w0 (lit "import")) && negb (eqb w0 (lit "/-!"))).
    { intros E; injection E as <-. apply Htwo. reflexivity. }
    destruct (eqb w0 (lit "/-!")).
    { intros E; injection E as <-. apply Hone. now right. }
    destruct (2 <? List.length (split l)).
    2:{ intros E; injection E as <-. apply Hone. now right. }
    destruct (index (split l) 2) as [w2|]; cbn [bind]; [|discriminate].
    destruct (negb (eqb w2 (lit "--"))); intros E; injection E as <-.
    + apply Htwo. reflexivity.
    + apply Hone. now right.
Qed.

(** The loop only appends to [errors], and what it appends at line 0
    is the violation [(ERR_COP, 0, path)]. *)
Lemma regular_check_loop_appends (xs : list (nat * str)) (st : rc_state)
  (errs : list error) :
  (forall n l, In (n, l) xs -> 1 <= n) ->
  regular_check_loop path st xs = Ok errs ->
  exists tail, errs = errors st ++ tail /\
    forall e, In e tail -> err_line e = 0 -> e = (ERR_COP, 0, path).
Proof.
  revert st; induction xs as [|[n l] xs IH]; intros st Hxs; cbn [regular_check_loop].
  - intros E; injection E as <-. exists []. rewrite app_nil_r.
    split; [reflexivity | intros e []].
  - assert (Hn : 1 <= n) by (apply (Hxs n l); now left).
    destruct (regular_check_body path st n l) as [f|] eqn:Hbody; cbn [bind]; [|discriminate].
    destruct (regular_check_body_appends st n l f Hbody) as (new & Hnew & Hshape).
    assert (Hzero : forall e, In e new -> err_line e = 0 -> e = (ERR_COP, 0, path)).
    { intros e Hin Hz. destruct (Hshape e Hin) as [-> | He]; [|lia].
      unfold err_line in Hz. simpl in Hz. now rewrite Hz. }
    destruct f as [st'|st']; simpl in Hnew.
    + intros H. apply IH in H as (tail & -> & Htail);
        [|intros k h Hin; apply (Hxs k h); now right].
      exists (new ++ tail). rewrite Hnew, <- app_assoc. split; [reflexivity|].
      intros e Hin. apply in_app_iff in Hin as [Hin | Hin]; auto.
    + intros E; injection E as <-. exists new. auto.
Qed.

(** Blank lines at the start of the file each add [(ERR_COP, 0, path)]. *)
Lemma regular_check_loop_blank_prefix (m k : nat) (st : rc_state) (rest : list str) :
  copy_started st = false ->
  regular_check_loop path st (enumerate (repeat (litn "") m ++ rest) k)
  = regular_check_loop path
      {| errors := errors st ++ repeat (ERR_COP, copy_start_line_nr st, path) m;
         copy_started := copy_started st; copy_done := copy_done st;
         copy_start_line_nr := copy_start_line_nr st; copy_lines := copy_lines st |}
      (enumerate rest (k + m)).
Proof.
  revert k st; induction m as [|m IH]; intros k st Hs.
  - simpl. rewrite app_nil_r, Nat.add_0_r. now destruct st.
  - cbn [repeat app enumerate regular_check_loop]. unfold regular_check_body.
    rewrite Hs. simpl. rewrite IH by assumption. simpl.
    rewrite ?Hs, <- app_assoc, Nat.add_succ_r. reflexivity.
Qed.

End HeaderAppends.

(** C5 (as the checks do it): in one pass of a check no violation on a
    real line is reported twice. The line-length, import-only,
    forbidden-character, reserved-notation and forbidden-directive
    checks never repeat a violation; the header check never repeats a
    violation whose line number is at least 1, every violation it
    reports at line 0 is [(ERR_COP, 0, path)], and it reports that
    violation once for each blank line at the start of the file: when
    the file starts with [m] blank lines its result starts with [m]
    copies of it, whatever follows. *)
Theorem check_pass_no_repeat (fs : FileSystem) (lines : list str) (path : Path) :
  NoDup (long_lines_check lines path)
  /\ (forall b errs, import_only_check lines path = Ok (b, errs) -> NoDup errs)
  /\ (forall errs, regular_check lines path = Ok errs ->
        NoDup (filter on_a_line errs))
  /\ NoDup (small_alpha_vrachy_check lines path)
  /\ NoDup (reserved_notation_check fs lines path)
  /\ (forall errs, set_option_check lines path = Ok errs -> NoDup errs)
  /\ (forall m, regular_check (repeat (litn "") m) path
                = Ok (repeat (ERR_COP, 0, path) m))
  /\ (forall errs, regular_check lines path = Ok errs ->
        forall e, In e errs -> err_line e = 0 -> e = (ERR_COP, 0, path))
  /\ (forall m rest errs, lines = repeat (litn "") m ++ rest ->
        regular_check lines path = Ok errs ->
        exists tail, errs = repeat (ERR_COP, 0, path) m ++ tail).
Proof.
  repeat split.
  - apply long_lines_check_NoDup.
  - intros b errs. apply import_only_check_NoDup.
  - intros errs. apply regular_check_NoDup.
  - apply small_alpha_vrachy_check_NoDup.
  - apply reserved_notation_check_NoDup.
  - intros errs. apply set_option_check_NoDup.
  - intros m. unfold regular_check. now rewrite regular_check_loop_blank.
  - intros errs H. unfold regular_check in H.
    apply regular_check_loop_appends in H as (tail & -> & Htail); [exact Htail|].
    intros n l Hin. now apply enumerate_In in Hin as [Hn _].
  - intros m rest errs -> H. unfold regular_check in H.
    rewrite regular_check_loop_blank_prefix in H by reflexivity.
    apply regular_check_loop_appends in H as (tail & -> & _).
    + simpl. eauto.
    + intros n l Hin. apply enumerate_In in Hin as [Hn _]. lia.
Qed.

Lemma check_pass_no_repeat_witness :
  NoDup [(ERR_IMP, 1, a_lean)]
  /\ NoDup (filter on_a_line
              [(ERR_COP, 0, a_lean); (ERR_COP, 0, a_lean);
               (ERR_COP, 3, a_lean); (ERR_MOD, 3, a_lean)])
  /\ NoDup [(ERR_OPT, 1, a_lean)]
  /\ (ERR_COP, 0, a_lean) = (ERR_COP, 0, a_lean)
  /\ exists tail,
       [(ERR_COP, 0, a_lean); (ERR_COP, 0, a_lean);
        (ERR_COP, 3, a_lean); (ERR_MOD, 3, a_lean)]
       = repeat (ERR_COP, 0, a_lean) 2 ++ tail.
Proof.
  split; [|split; [|split; [|split]]].
  - apply (proj1 (proj2 (check_pass_no_repeat (plain_fs (fun _ => Raise OSError))
                           [litn "import a b"] a_lean)) true).
    reflexivity.
  - apply (proj1 (proj2 (proj2 (check_pass_no_repeat (plain_fs (fun _ => Raise OSError))
                                  [litn ""; litn ""; litn "theorem x"] a_lean)))).
    reflexivity.
  - apply (proj1 (proj2 (proj2 (proj2 (proj2 (proj2
             (check_pass_no_repeat (plain_fs (fun _ => Raise OSError))
                [litn "set_option pp.all true"] a_lean))))))).
    reflexivity.
  - apply (proj1 (proj2 (proj2 (proj2 (proj2 (proj2 (proj2 (proj2
             (check_pass_no_repeat (plain_fs (fun _ => Raise OSError))
                [litn ""; litn ""; litn "theorem x"] a_lean))))))))
             [(ERR_COP, 0, a_lean); (ERR_COP, 0, a_lean);
              (ERR_COP, 3, a_lean); (ERR_MOD, 3, a_lean)] eq_refl).
    + simpl. left. reflexivity.
    + reflexivity.
  - apply (proj2 (proj2 (proj2 (proj2 (proj2 (proj2 (proj2 (proj2
             (check_pass_no_repeat (plain_fs (fun _ => Raise OSError))
                [litn ""; litn ""; litn "theorem x"] a_lean))))))))
             2 [litn "theorem x"]); reflexivity.
Defined.

(** C5 fails as stated: the file of two blank lines and a line
    [theorem x] is not import-only, so [lint] runs the header check on
    it, and the header check reports the same violation twice. *)
Lemma blank_lines_repeat_violation :
  import_only_check [litn ""; litn ""; litn "theorem x"] a_lean = Ok (false, [])
  /\ regular_check [litn ""; litn ""; litn "theorem x"] a_lean
     = Ok [(ERR_COP, 0, a_lean); (ERR_COP, 0, a_lean);
           (ERR_COP, 3, a_lean); (ERR_MOD, 3, a_lean)]
  /\ ~ NoDup [(ERR_COP, 0, a_lean); (ERR_COP, 0, a_lean);
              (ERR_COP, 3, a_lean); (ERR_MOD, 3, a_lean)].
Proof.
  split; [reflexivity | split; [reflexivity|]].
  intros H. inversion H as [|x l Hnotin _]. apply Hnotin. now left.
Qed.

(** * Further properties of the filters and checks *)

(** ** Comment-skip and string-skip mode *)

Lemma skip_comments_loop_not_blank (xs : list (nat * str)) (in_comment : bool)
  (k : nat) (l : str) :
  In (k, l) (skip_comments_loop in_comment xs) -> l <> litn "".
Proof.
  revert in_comment; induction xs as [|[n h] xs IH]; intros c; simpl; [tauto|].
  destruct (contains comment_close h); [apply IH|].
  destruct (eqb h (litn "")) eqn:Hb; simpl; [apply IH|].
  destruct (if contains comment_open h then true else c); [apply IH|].
  intros [E | H]; [|now apply IH in H].
  injection E as <- <-. now apply eqb_neq.
Qed.

(** X1: comment-skip mode yields lines of the file under their own
    line numbers, in increasing order, and never a line that has a
    block-comment marker or is the bare newline. *)
Theorem skip_comments_yields (lines : list str) :
  ascending 1 (skip_comments (enumerate lines 1))
  /\ forall n l, In (n, l) (skip_comments (enumerate lines 1)) ->
       1 <= n /\ nth_error lines (n - 1) = Some l
       /\ contains comment_open l = false /\ contains comment_close l = false
       /\ l <> litn "".
Proof.
  split; [apply skip_comments_ascending|].
  intros n l Hin. unfold skip_comments in Hin.
  pose proof (skip_comments_loop_not_blank _ _ _ _ Hin) as Hnb.
  apply skip_comments_loop_In in Hin as (Hin & Ho & Hc).
  apply enumerate_In in Hin as [Hn Hl]. auto.
Qed.

Lemma skip_comments_yields_witness :
  1 <= 3 /\ nth_error [litn "/- a"; litn "b -/"; litn "c"] (3 - 1) = Some (litn "c")
  /\ contains comment_open (litn "c") = false
  /\ contains comment_close (litn "c") = false
  /\ litn "c" <> litn "".
Proof.
  apply (proj2 (skip_comments_yields [litn "/- a"; litn "b -/"; litn "c"]) 3 (litn "c")).
  simpl. left. reflexivity.
Defined.

(** X2: a line that reaches the forbidden-character, reserved-notation
    or forbidden-directive check, through comment-skip and then
    string-skip mode, is a line of the file that has no quote character,
    no block-comment marker and is not the bare newline. *)
Theorem filtered_lines_clean (lines : list str) (n : nat) (l : str) :
  In (n, l) (skip_string (skip_comments (enumerate lines 1))) ->
  1 <= n /\ nth_error lines (n - 1) = Some l
  /\ count l [quote] = 0
  /\ contains comment_open l = false /\ contains comment_close l = false
  /\ l <> litn "".
Proof.
  intros Hin. unfold skip_string in Hin.
  apply skip_string_loop_In in Hin as [Hin Hq].
  - unfold skip_comments in Hin.
    pose proof (skip_comments_loop_not_blank _ _ _ _ Hin) as Hnb.
    apply skip_comments_loop_In in Hin as (Hin & Ho & Hc).
    apply enumerate_In in Hin as [Hn Hl]. tauto.
  - intros m h Hh. unfold skip_comments in Hh.
    apply skip_comments_loop_In in Hh. tauto.
Qed.

Lemma filtered_lines_clean_witness :
  1 <= 2
  /\ nth_error [quote :: lit "a" ++ [quote; nl]; litn "b"] (2 - 1) = Some (litn "b")
  /\ count (litn "b") [quote] = 0
  /\ contains comment_open (litn "b") = false
  /\ contains comment_close (litn "b") = false
  /\ litn "b" <> litn "".
Proof.
  apply (filtered_lines_clean [quote :: lit "a" ++ [quote; nl]; litn "b"] 2 (litn "b")).
  vm_compute. left. reflexivity.
Defined.

(** ** The line-length check *)

(** X3: the line-length check reports line [n] exactly when that line
    has no [http] and [len(line)], terminator included, exceeds 101; a
    line with [http] is never reported, whatever its length. *)
Theorem long_lines_check_reports (lines : list str) (path : Path) (n : nat) :
  In (ERR_LIN, n, path) (long_lines_check lines path) <->
  exists line, 1 <= n /\ nth_error lines (n - 1) = Some line /\
               contains (lit "http") line = false /\ 101 < List.length line.
Proof. apply long_lines_flagged. Qed.

(** X4: on a line that ends with its newline and has no [http], the
    line-length check reports the line exactly when it has at least 101
    characters before the newline. *)
Theorem long_lines_limit_terminated (lines : list str) (path : Path) (n : nat)
  (body : str) :
  1 <= n -> nth_error lines (n - 1) = Some (body ++ [nl]) ->
  contains (lit "http") (body ++ [nl]) = false ->
  (In (ERR_LIN, n, path) (long_lines_check lines path) <-> 101 <= List.length body).
Proof. apply long_lines_terminated. Qed.

Lemma long_lines_limit_terminated_witness :
  In (ERR_LIN, 1, a_lean) (long_lines_check [repeat 120%N 101 ++ [nl]] a_lean)
  <-> 101 <= List.length (repeat 120%N 101).
Proof.
  apply (long_lines_limit_terminated [repeat 120%N 101 ++ [nl]] a_lean 1
           (repeat 120%N 101)); [lia | reflexivity | reflexivity].
Defined.

(** ** The forbidden-directive check *)

Section SetOption.

Variable path : Path.

Lemma split_on_from_head (sep : char) (s cur : str) :
  exists field rest, split_on_from sep cur s = field :: rest.
Proof.
  revert cur; induction s as [|c s IH]; intros cur; simpl; [eauto|].
  destruct (N.eqb c sep); [eauto | apply IH].
Qed.

(** [s.split(sep)] has a second field exactly when [sep] occurs in [s]. *)
Lemma split_on_from_second (sep : char) (s cur : str) :
  (exists arg, index (split_on_from sep cur s) 1 = Ok arg) <-> contains [sep] s = true.
Proof.
  revert cur; induction s as [|c s IH]; intros cur; simpl.
  - split; [intros [arg H]; discriminate H | discriminate].
  - destruct (N.eqb c sep); simpl; [|apply IH].
    split; [reflexivity | intros _].
    destruct (split_on_from_head sep s []) as (field & rest & ->).
    exists field. reflexivity.
Qed.

Lemma index_raises (A : Type) (l : list A) (i : nat) (e : exn) :
  index l i = Raise e -> e = IndexError.
Proof. unfold index. destruct (nth_error l i); [discriminate | congruence]. Qed.

Lemma set_option_loop_returns (xs : list (nat * str)) (acc : list error) :
  (exists errs, set_option_loop path acc xs = Ok errs) <->
  (forall n l, In (n, l) xs -> startswith l (lit "set_option") = true ->
     contains [space] l = true).
Proof.
  revert acc; induction xs as [|[n l] xs IH]; intros acc; cbn [set_option_loop].
  - split; [intros _ n l [] | eauto].
  - destruct (startswith l (lit "set_option")) eqn:Hs.
    + destruct (index (split_on space l) 1) as [arg|e] eqn:Hi; cbn [bind].
      * assert (Hsp : contains [space] l = true).
        { apply (split_on_from_second space l []). eauto. }
        match goal with |- context [if ?b then _ else _] => destruct b end;
          rewrite IH; (split; [intros H m h [E | Hin]; [injection E as <- <-; auto | eauto]
                              | intros H m h Hin; apply (H m h); now right]).
      * split; [intros [errs H]; discriminate H|].
        intros H. assert (Hsp : contains [space] l = true) by (apply (H n l); auto; now left).
        apply (split_on_from_second space l []) in Hsp as [arg Harg].
        unfold split_on in Hi. congruence.
    + rewrite IH. split.
      * intros H m h [E | Hin]; [injection E as <- <-; congruence | eauto].
      * intros H m h Hin. apply (H m h). now right.
Qed.

Lemma set_option_loop_raises (xs : list (nat * str)) (acc : list error) (e : exn) :
  set_option_loop path acc xs = Raise e -> e = IndexError.
Proof.
  revert acc; induction xs as [|[n l] xs IH]; intros acc; cbn [set_option_loop];
    [discriminate|].
  destruct (startswith l (lit "set_option")); [|apply IH].
  destruct (index (split_on space l) 1) as [arg|e'] eqn:Hi; cbn [bind].
  - match goal with |- context [if ?b then _ else _] => destruct b end; apply IH.
  - intros E. injection E as <-. eapply index_raises; eassumption.
Qed.

End SetOption.

(** X5: the forbidden-directive check returns a list of violations
    exactly when every line that reaches it and starts with
    [set_option] has a space; otherwise it raises, and the only
    exception it raises is IndexError. *)
Theorem set_option_check_returns (lines : list str) (path : Path) :
  ((exists errs, set_option_check lines path = Ok errs) <->
   (forall n l, In (n, l) (skip_string (skip_comments (enumerate lines 1))) ->
      startswith l (lit "set_option") = true -> contains [space] l = true))
  /\ (forall e, set_option_check lines path = Raise e -> e = IndexError).
Proof.
  split; [apply set_option_loop_returns | apply set_option_loop_raises].
Qed.

Lemma set_option_check_returns_witness :
  (exists errs, set_option_check [litn "set_option pp.all true"] a_lean = Ok errs)
  /\ IndexError = IndexError.
Proof.
  split.
  - apply (proj1 (set_option_check_returns [litn "set_option pp.all true"] a_lean)).
    intros n l Hin _. vm_compute in Hin. destruct Hin as [E | []].
    injection E as _ <-. reflexivity.
  - apply (proj2 (set_option_check_returns [litn "set_option"] a_lean) IndexError).
    reflexivity.
Defined.

(** ** The import-only check *)

Section ImportOnlyShape.

Variable path : Path.

(** A token that is being read is the head of the first token. *)
Lemma split_from_head (s cur : str) :
  cur <> [] -> exists w ws, split_from cur s = (cur ++ w) :: ws.
Proof.
  revert cur; induction s as [|c s IH]; intros cur Hcur; simpl.
  - destruct cur; [contradiction|]. exists [], []. now rewrite app_nil_r.
  - destruct (isspace c).
    + destruct cur; [contradiction|]. exists [], (split_from [] s). now rewrite app_nil_r.
    + destruct (IH (cur ++ [c])) as (w & ws & ->); [now destruct cur|].
      exists (c :: w), ws. now rewrite <- app_assoc.
Qed.

(** The first token of a line that starts with a character other than
    whitespace starts with that character. *)
Lemma split_first_char (c : char) (s : str) :
  isspace c = false -> exists w ws, split (c :: s) = (c :: w) :: ws.
Proof.
  intros Hc. unfold split. simpl. rewrite Hc.
  destruct (split_from_head s [c]) as (w & ws & ->); [discriminate|].
  exists w, ws. reflexivity.
Qed.

(** When the loop ends with [import_only_file] still true, the first
    token of every line it read is [--] or [import]. *)
Lemma import_only_loop_true (xs : list (nat * str)) (acc errs : list error) :
  import_only_loop path acc xs = Ok (true, errs) ->
  forall n l, In (n, l) xs ->
    exists w0 ws, split l = w0 :: ws /\ (w0 = lit "--" \/ w0 = lit "import").
Proof.
  revert acc; induction xs as [|[n l] xs IH]; intros acc; cbn [import_only_loop].
  - intros _ m h [].
  - unfold index. destruct (split l) as [|w0 ws] eqn:Hsp; cbn [nth_error bind];
      [discriminate|].
    intros H m h [E | Hin].
    + injection E as <- <-. exists w0, ws. split; [assumption|]. revert H.
      destruct (eqb w0 (lit "--")) eqn:E1; [left; now apply eqb_eq|].
      destruct (eqb w0 (lit "import")) eqn:E2; [right; now apply eqb_eq|].
      discriminate.
    + revert H. destruct (eqb w0 (lit "--")); [intros H; eapply IH; eassumption|].
      destruct (eqb w0 (lit "import")); cbn [negb]; [|discriminate].
      destruct (2 <? List.length (w0 :: ws)); [|intros H; eapply IH; eassumption].
      destruct ws as [|x [|y ws]]; cbn [bind]; try discriminate.
      destruct (eqb y (lit "--")); intros H; eapply IH; eassumption.
Qed.

(** What the loop adds to [errors]: ERR_IMP violations for lines whose
    first token is [import] and whose third token is not [--]. *)
Lemma import_only_loop_reports (xs : list (nat * str)) (acc errs : list error) (b : bool) :
  import_only_loop path acc xs = Ok (b, errs) ->
  exists new, errs = acc ++ new /\
    forall e, In e new ->
      exists n l x y ws, e = (ERR_IMP, n, path) /\ In (n, l) xs /\
        split l = lit "import" :: x :: y :: ws /\ y <> lit "--".
Proof.
  revert acc; induction xs as [|[n l] xs IH]; intros acc; cbn [import_only_loop].
  - intros E. injection E as _ <-. exists []. rewrite app_nil_r. split; [reflexivity|].
    intros e [].
  - assert (Hkeep : forall acc', import_only_loop path acc' xs = Ok (b, errs) ->
              exists new, errs = acc' ++ new /\
                forall e, In e new ->
                  exists m h x y ws, e = (ERR_IMP, m, path) /\ In (m, h) ((n, l) :: xs) /\
                    split h = lit "import" :: x :: y :: ws /\ y <> lit "--").
    { intros acc' H. apply IH in H as (new & -> & Hnew). exists new. split; [reflexivity|].
      intros e Hin. destruct (Hnew e Hin) as (m & h & x & y & ws & -> & Hmh & Hs & Hy).
      exists m, h, x, y, ws. repeat split; auto. now right. }
    unfold index. destruct (split l) as [|w0 ws] eqn:Hsp; cbn [nth_error bind];
      [discriminate|].
    destruct (eqb w0 (lit "--")); [apply Hkeep|].
    destruct (eqb w0 (lit "import")) eqn:E0; cbn [negb].
    2:{ intros E. injection E as _ <-. exists []. rewrite app_nil_r.
        split; [reflexivity | intros e []]. }
    apply eqb_eq in E0. subst w0.
    destruct ws as [|x [|y ws]]; cbn [List.length Nat.ltb Nat.leb nth_error bind];
      try apply Hkeep.
    destruct (eqb y (lit "--")) eqn:Ey; [apply Hkeep|].
    intros H. apply Hkeep in H as (new & -> & Hnew).
    exists ((ERR_IMP, n, path) :: new). split; [now rewrite <- app_assoc|].
    intros e [<- | Hin]; [|now apply Hnew].
    exists n, l, x, y, ws. repeat split; auto; [now left | now apply eqb_neq].
Qed.

End ImportOnlyShape.

(** X6: every violation of the import-only check is an ERR_IMP on a
    line of the file whose first token is [import] and that has a third
    token other than [--]. *)
Theorem import_only_check_reports (lines : list str) (path : Path) (b : bool)
  (errs : list error) :
  import_only_check lines path = Ok (b, errs) ->
  forall e, In e errs ->
    exists n l x y ws, e = (ERR_IMP, n, path) /\ 1 <= n /\
      nth_error lines (n - 1) = Some l /\
      split l = lit "import" :: x :: y :: ws /\ y <> lit "--".
Proof.
  intros H e Hin. apply import_only_loop_reports in H as (new & -> & Hnew).
  destruct (Hnew e Hin) as (n & l & x & y & ws & -> & Hnl & Hs & Hy).
  unfold skip_comments in Hnl. apply skip_comments_loop_In in Hnl as [Hnl _].
  apply enumerate_In in Hnl as [Hn Hl].
  exists n, l, x, y, ws. auto.
Qed.

Lemma import_only_check_reports_witness :
  exists n l x y ws, (ERR_IMP, 2, a_lean) = (ERR_IMP, n, a_lean) /\ 1 <= n /\
    nth_error [litn "import a"; litn "import b c"] (n - 1) = Some l /\
    split l = lit "import" :: x :: y :: ws /\ y <> lit "--".
Proof.
  apply (import_only_check_reports [litn "import a"; litn "import b c"] a_lean true
           [(ERR_IMP, 2, a_lean)] eq_refl (ERR_IMP, 2, a_lean)).
  simpl. left. reflexivity.
Defined.

Section ImportOnlySkips.

Variable path : Path.

Lemma skip_string_loop_sub (xs : list (nat * str)) (st : bool * bool) (k : nat) (l : str) :
  In (k, l) (skip_string_loop st xs) -> In (k, l) xs.
Proof.
  revert st; induction xs as [|[n h] xs IH]; intros st; simpl; [tauto|].
  destruct (skip_string_step st h) as [st' []]; simpl.
  - intros [E | H]; [now left | right; eapply IH; eassumption].
  - intros H. right. eapply IH; eassumption.
Qed.

Lemma startswith_head (l pre : str) (c : char) :
  startswith l (c :: pre) = true -> exists l', l = c :: l'.
Proof.
  destruct l as [|d l]; simpl; [discriminate|].
  intros H. apply andb_true_iff in H as [H _]. apply N.eqb_eq in H. subst. eauto.
Qed.

(** A line whose first token is [--] or [import] starts with none of
    the keywords of the reserved-notation and forbidden-directive
    checks. *)
Lemma import_token_no_keyword (l w0 : str) (ws : list str) :
  split l = w0 :: ws -> w0 = lit "--" \/ w0 = lit "import" ->
  startswith l (lit "reserve") = false /\
  startswith l (lit "precedence") = false /\
  startswith l (lit "set_option") = false.
Proof.
  intros Hsp Hw0.
  assert (Hno : forall c pre, isspace c = false ->
            c <> 45%N -> c <> 105%N -> startswith l (c :: pre) = false).
  { intros c pre Hc H45 H105. destruct (startswith l (c :: pre)) eqn:E; [|reflexivity].
    apply startswith_head in E as [l' ->].
    destruct (split_first_char c l' Hc) as (w & ws' & Hsp').
    rewrite Hsp' in Hsp. injection Hsp as <- _.
    destruct Hw0 as [E | E]; injection E as E _; congruence. }
  repeat split; apply Hno; try reflexivity; discriminate.
Qed.

Lemma filter_none (g : nat * str -> bool) (xs : list (nat * str)) :
  (forall x, In x xs -> g x = false) -> filter g xs = [].
Proof.
  induction xs as [|x xs IH]; simpl; [reflexivity|].
  intros H. rewrite (H x) by now left. apply IH. intros y Hy. apply H. now right.
Qed.

Lemma set_option_loop_none (xs : list (nat * str)) (acc : list error) :
  (forall n l, In (n, l) xs -> startswith l (lit "set_option") = false) ->
  set_option_loop path acc xs = Ok acc.
Proof.
  induction xs as [|[n l] xs IH]; intros H; cbn [set_option_loop]; [reflexivity|].
  rewrite (H n l) by now left. apply IH. intros m h Hin. apply (H m h). now right.
Qed.

End ImportOnlySkips.

(** X7: on a file that the import-only check classifies as import-only,
    the reserved-notation check and the forbidden-directive check find
    nothing, so the early return of [lint] drops no violation of these
    two checks. *)
Theorem import_only_no_notation_or_option (fs : FileSystem) (lines : list str)
  (path : Path) (errs : list error) :
  import_only_check lines path = Ok (true, errs) ->
  reserved_notation_check fs lines path = [] /\ set_option_check lines path = Ok [].
Proof.
  intros H.
  assert (Hkw : forall n l, In (n, l) (skip_string (skip_comments (enumerate lines 1))) ->
            startswith l (lit "reserve") = false /\
            startswith l (lit "precedence") = false /\
            startswith l (lit "set_option") = false).
  { intros n l Hin. apply skip_string_loop_sub in Hin.
    destruct (import_only_loop_true path _ [] errs H n l Hin) as (w0 & ws & Hsp & Hw0).
    eapply import_token_no_keyword; eassumption. }
  split.
  - unfold reserved_notation_check.
    destruct (eqb (resolve fs path) (RESERVED_NOTATION fs)); [reflexivity|].
    rewrite reserved_notation_loop_spec, filter_none; [reflexivity|].
    intros [n l] Hin. cbn [snd]. destruct (Hkw n l Hin) as (-> & -> & _). reflexivity.
  - apply set_option_loop_none. intros n l Hin. now destruct (Hkw n l Hin) as (_ & _ & ->).
Qed.

Lemma import_only_no_notation_or_option_witness :
  reserved_notation_check (plain_fs (fun _ => Raise OSError))
    [litn "-- reserve"; litn "import a"] a_lean = []
  /\ set_option_check [litn "-- reserve"; litn "import a"] a_lean = Ok [].
Proof.
  apply (import_only_no_notation_or_option (plain_fs (fun _ => Raise OSError))
           [litn "-- reserve"; litn "import a"] a_lean []).
  reflexivity.
Defined.

(** ** Files on which the scan does not raise *)

Section Returns.

Variable path : Path.

Lemma index_in_range {A : Type} (l : list A) (i : nat) :
  i < List.length l -> exists a, index l i = Ok a.
Proof.
  intros H. unfold index. destruct (nth_error l i) eqn:E; [eauto|].
  apply nth_error_None in E. lia.
Qed.

Lemma import_only_loop_returns (xs : list (nat * str)) (acc : list error) :
  (forall n l, In (n, l) xs -> split l <> []) ->
  exists b errs, import_only_loop path acc xs = Ok (b, errs).
Proof.
  revert acc; induction xs as [|[n l] xs IH]; intros acc Hxs; cbn [import_only_loop];
    [eauto|].
  assert (Hrest : forall acc', exists b errs, import_only_loop path acc' xs = Ok (b, errs)).
  { intros acc'. apply IH. intros m h Hin. apply (Hxs m h). now right. }
  destruct (split l) as [|w0 ws] eqn:Hsp; [exfalso; apply (Hxs n l); [now left | assumption]|].
  unfold index at 1. cbn [nth_error bind].
  destruct (eqb w0 (lit "--")); [apply Hrest|].
  destruct (negb (eqb w0 (lit "import"))); [eauto|].
  destruct (2 <? List.length (w0 :: ws)) eqn:Hlen; [|apply Hrest].
  apply Nat.ltb_lt in Hlen. destruct (index_in_range (w0 :: ws) 2 Hlen) as [w2 ->].
  cbn [bind]. destruct (eqb w2 (lit "--")); apply Hrest.
Qed.

Lemma regular_check_body_returns (st : rc_state) (n : nat) (l : str) :
  scannable l -> exists f, regular_check_body path st n l = Ok f.
Proof.
  intros Hl. unfold regular_check_body. cbv zeta.
  destruct (negb (copy_started st) && eqb l (litn "")) eqn:H1; [eauto|].
  destruct (negb (copy_started st) && eqb l (litn "/-")); [eauto|].
  match goal with |- context [if copy_started ?s && negb (copy_done ?s) then _ else _] =>
    destruct (copy_started s && negb (copy_done s)) eqn:H2;
    [destruct (eqb l (litn "-/")); eauto|];
    destruct (copy_done s && eqb l (litn "")) eqn:H3; [eauto|]
  end.
  destruct (split l) as [|w0 ws] eqn:Hsp.
  - exfalso. destruct Hl as [-> | Hl]; [|now apply Hl].
    rewrite eqb_refl, andb_true_r in H1, H3. apply negb_false_iff in H1.
    rewrite H1 in H2, H3. cbn [negb andb] in H2, H3. rewrite H1, H3 in H2. discriminate.
  - unfold index at 1. cbn [nth_error bind].
    destruct (negb (eqb w0 (lit "import")) && negb (eqb w0 (lit "/-!"))); [eauto|].
    destruct (eqb w0 (lit "/-!")); [eauto|].
    destruct (2 <? List.length (w0 :: ws)) eqn:Hlen; [|eauto].
    apply Nat.ltb_lt in Hlen. destruct (index_in_range (w0 :: ws) 2 Hlen) as [w2 ->].
    cbn [bind]. destruct (negb (eqb w2 (lit "--"))); eauto.
Qed.

Lemma regular_check_loop_returns (xs : list (nat * str)) (st : rc_state) :
  (forall n l, In (n, l) xs -> scannable l) ->
  exists errs, regular_check_loop path st xs = Ok errs.
Proof.
  revert st; induction xs as [|[n l] xs IH]; intros st Hxs; cbn [regular_check_loop];
    [eauto|].
  destruct (regular_check_body_returns st n l) as [f ->]; [apply (Hxs n l); now left|].
  cbn [bind]. destruct f as [st'|st']; [|eauto].
  apply IH. intros m h Hin. apply (Hxs m h). now right.
Qed.

End Returns.

(** X8: [lint] returns, with no exception, on every readable file in
    which each line is the bare newline or has a character other than
    whitespace, and each line that starts with [set_option] has a
    space. *)
Theorem lint_returns (fs : FileSystem) (exceptions : list (errno * Path)) (path : Path)
  (lines : list str) (st : state) :
  readlines fs path = Ok lines ->
  (forall l, In l lines -> scannable l) ->
  (forall l, In l lines -> startswith l (lit "set_option") = true ->
     contains [space] l = true) ->
  exists st', lint fs exceptions path st = (st', Ok tt).
Proof.
  intros Hread Hscan Hopt. unfold lint. rewrite Hread.
  destruct (import_only_loop_returns path (skip_comments (enumerate lines 1)) [])
    as (b & errs & Himp).
  { intros n l Hin. unfold skip_comments in Hin.
    pose proof (skip_comments_loop_not_blank _ _ _ _ Hin) as Hnb.
    apply skip_comments_loop_In in Hin as [Hin _].
    apply enumerate_In in Hin as [_ Hl]. apply nth_error_In in Hl.
    destruct (Hscan l Hl); [contradiction | assumption]. }
  unfold import_only_check. rewrite Himp. destruct b; [eauto|].
  destruct (regular_check_loop_returns path (enumerate lines 1)
              {| errors := []; copy_started := false; copy_done := false;
                 copy_start_line_nr := 0; copy_lines := [] |}) as [errs' Hreg].
  { intros n l Hin. apply enumerate_In in Hin as [_ Hl]. apply nth_error_In in Hl. auto. }
  unfold regular_check. rewrite Hreg.
  destruct (proj2 (set_option_loop_returns path
                     (skip_string (skip_comments (enumerate lines 1))) []))
    as [errs'' Hset].
  { intros n l Hin. apply skip_string_loop_sub in Hin. unfold skip_comments in Hin.
    apply skip_comments_loop_In in Hin as [Hin _].
    apply enumerate_In in Hin as [_ Hl]. apply nth_error_In in Hl. auto. }
  unfold set_option_check. rewrite Hset. eauto.
Qed.

Lemma lint_returns_witness :
  exists st',
    lint (plain_fs (fun _ => Ok [litn ""; litn "set_option pp.all true"])) [] a_lean initial
    = (st', Ok tt).
Proof.
  apply (lint_returns (plain_fs (fun _ => Ok [litn ""; litn "set_option pp.all true"]))
           [] a_lean [litn ""; litn "set_option pp.all true"] initial eq_refl).
  - intros l [<- | [<- | []]]; [left; reflexivity | right; vm_compute; discriminate].
  - intros l [<- | [<- | []]] H; [vm_compute in H; discriminate H | reflexivity].
Defined.

(** ** The violations of the header check *)

Section HeaderShape.

Variable path : Path.
Variable m : nat.

Lemma header_state_add (st : rc_state) (c : errno) (n : nat) :
  header_state path m st -> n <= m -> c = ERR_COP \/ c = ERR_IMP ->
  header_state path m (add_error st (c, n, path)).
Proof.
  intros [Herrs Hcs] Hn Hc. split; [|assumption].
  simpl. intros e Hin. apply in_app_iff in Hin as [Hin | [<- | []]]; [auto|].
  unfold header_violation, err_no, err_path, err_line. simpl. auto.
Qed.

Lemma regular_check_body_shape (st : rc_state) (n : nat) (l : str) (f : flow) :
  header_state path m st -> n <= m ->
  regular_check_body path st n l = Ok f ->
  match f with
  | Next st' => header_state path m st'
  | Break st' =>
      header_state path m st' \/
      exists st0, header_state path m st0 /\ errors st' = errors st0 ++ [(ERR_MOD, n, path)]
  end.
Proof.
  intros Hst Hn. unfold regular_check_body. cbv zeta.
  assert (Hcop : header_state path m (add_error st (ERR_COP, n, path)))
    by (apply header_state_add; auto).
  assert (Hst1 : header_state path m
            (if negb (copy_started st) then add_error st (ERR_COP, n, path) else st))
    by (destruct (negb (copy_started st)); assumption).
  remember (if negb (copy_started st) then add_error st (ERR_COP, n, path) else st) as st1.
  destruct (negb (copy_started st) && eqb l (litn "")).
  { intros E; injection E as <-. apply header_state_add; auto. apply Hst. }
  destruct (negb (copy_started st) && eqb l (litn "/-")).
  { intros E; injection E as <-. split; [apply Hst | exact Hn]. }
  destruct (copy_started st1 && negb (copy_done st1)).
  { destruct (eqb l (litn "-/")); intros E; injection E as <-;
      (split; [|apply Hst1]); simpl; [|apply Hst1].
    destruct (header_incomplete (copy_lines st1 ++ l)); [|apply Hst1].
    apply (header_state_add st1 ERR_COP (copy_start_line_nr st1) Hst1);
      [apply Hst1 | auto]. }
  destruct (copy_done st1 && eqb l (litn "")).
  { intros E; injection E as <-. assumption. }
  destruct (index (split l) 0) as [w0|]; cbn [bind]; [|discriminate].
  destruct (negb (eqb w0 (lit "import")) && negb (eqb w0 (lit "/-!"))).
  { intros E; injection E as <-. right. exists st1. auto. }
  destruct (eqb w0 (lit "/-!")).
  { intros E; injection E as <-. now left. }
  destruct (2 <? List.length (split l)); [|intros E; injection E as <-; assumption].
  destruct (index (split l) 2) as [w2|]; cbn [bind]; [|discriminate].
  destruct (negb (eqb w2 (lit "--"))); intros E; injection E as <-; [|assumption].
  apply header_state_add; auto.
Qed.

Lemma regular_check_loop_shape (xs : list (nat * str)) (st : rc_state) (errs : list error) :
  header_state path m st ->
  (forall n l, In (n, l) xs -> n <= m) ->
  regular_check_loop path st xs = Ok errs ->
  exists pre,
    (errs = pre \/ exists n, n <= m /\ errs = pre ++ [(ERR_MOD, n, path)]) /\
    forall e, In e pre -> header_violation path m e.
Proof.
  revert st; induction xs as [|[n l] xs IH]; intros st Hst Hxs; cbn [regular_check_loop].
  - intros E; injection E as <-. exists (errors st). split; [now left | apply Hst].
  - assert (Hn : n <= m) by (apply (Hxs n l); now left).
    destruct (regular_check_body path st n l) as [f|] eqn:Hbody; cbn [bind]; [|discriminate].
    pose proof (regular_check_body_shape st n l f Hst Hn Hbody) as Hf.
    destruct f as [st'|st'].
    + apply IH; [assumption|]. intros k h Hin. apply (Hxs k h). now right.
    + intros E; injection E as <-. destruct Hf as [Hf | (st0 & Hst0 & ->)].
      * exists (errors st'). split; [now left | apply Hf].
      * exists (errors st0). split; [right; eauto | apply Hst0].
Qed.

End HeaderShape.

(** X9: the violations of the header check are ERR_COP and ERR_IMP
    violations on the given path, at line numbers up to the length of
    the file, followed by at most one ERR_MOD violation, which is the
    last one because the check stops there. *)
Theorem regular_check_shape (lines : list str) (path : Path) (errs : list error) :
  regular_check lines path = Ok errs ->
  exists pre,
    (errs = pre \/
     exists n, n <= List.length lines /\ errs = pre ++ [(ERR_MOD, n, path)]) /\
    forall e, In e pre -> header_violation path (List.length lines) e.
Proof.
  apply regular_check_loop_shape.
  - split; simpl; [intros e [] | lia].
  - intros n l Hin. apply enumerate_In in Hin as [Hn Hl].
    assert (n - 1 < List.length lines) by (apply nth_error_Some; congruence). lia.
Qed.

Lemma regular_check_shape_witness :
  exists pre,
    ([(ERR_COP, 0, a_lean); (ERR_COP, 2, a_lean); (ERR_MOD, 2, a_lean)] = pre \/
     exists n, n <= List.length [litn ""; litn "theorem x"] /\
       [(ERR_COP, 0, a_lean); (ERR_COP, 2, a_lean); (ERR_MOD, 2, a_lean)]
       = pre ++ [(ERR_MOD, n, a_lean)]) /\
    forall e, In e pre -> header_violation a_lean (List.length [litn ""; litn "theorem x"]) e.
Proof.
  apply (regular_check_shape [litn ""; litn "theorem x"] a_lean). reflexivity.
Defined.

(** ** Files that the header check accepts *)

Section HeaderAccepts.

Variable path : Path.

(** The lines of the copyright block are collected in [copy_lines]. *)
Lemma regular_check_loop_block (body : list str) (k : nat) (st : rc_state)
  (after : list str) :
  copy_started st = true -> copy_done st = false ->
  (forall l, In l body -> l <> litn "-/") ->
  regular_check_loop path st (enumerate (body ++ after) k)
  = regular_check_loop path
      {| errors := errors st; copy_started := true; copy_done := false;
         copy_start_line_nr := copy_start_line_nr st;
         copy_lines := copy_lines st ++ List.concat body |}
      (enumerate after (k + List.length body)).
Proof.
  revert k st; induction body as [|l body IH]; intros k st Hs Hd Hbody.
  - simpl. rewrite app_nil_r, Nat.add_0_r. destruct st; simpl in *. now subst.
  - cbn [app enumerate regular_check_loop]. unfold regular_check_body.
    rewrite Hs. simpl. rewrite Hs, Hd. simpl.
    assert (El : eqb l (litn "-/") = false) by (apply eqb_neq, Hbody; now left).
    rewrite El. simpl. rewrite IH; simpl; auto.
    + rewrite <- app_assoc. repeat f_equal. lia.
    + intros h Hin. apply Hbody. now right.
Qed.

(** After the copyright block, blank lines and lines that import one
    file are passed over. *)
Lemma regular_check_loop_imports (imports : list str) (k : nat) (st : rc_state)
  (after : list str) :
  copy_started st = true -> copy_done st = true ->
  (forall l, In l imports -> import_line l) ->
  regular_check_loop path st (enumerate (imports ++ after) k)
  = regular_check_loop path st (enumerate after (k + List.length imports)).
Proof.
  revert k; induction imports as [|l imports IH]; intros k Hs Hd Himp.
  - simpl. now rewrite Nat.add_0_r.
  - cbn [app enumerate regular_check_loop].
    assert (Hbody : regular_check_body path st k l = Ok (Next st)).
    { unfold regular_check_body. rewrite Hs. simpl. rewrite Hs, Hd. simpl.
      destruct (eqb l (litn "")) eqn:Hb; [reflexivity|].
      destruct (Himp l) as [-> | (ws & -> & Hws)]; [now left | discriminate |].
      unfold index at 1. cbn [nth_error bind]. simpl eqb. cbn [negb andb].
      destruct ws as [|x [|y ws]]; try reflexivity.
      destruct Hws as [Hlen | Hy]; [simpl in Hlen; lia|].
      simpl in Hy. injection Hy as ->. reflexivity. }
    rewrite Hbody. cbn [bind]. rewrite IH; auto.
    + do 2 f_equal. simpl. lia.
    + intros h Hin. apply Himp. now right.
Qed.

End HeaderAccepts.

(** X10: the header check accepts, with no violation, every file made
    of the line that opens the copyright block, a block whose lines
    together with the closing line contain [Copyright], [Apache] and
    [Author], the closing line, then blank lines and lines that import
    one file, then a line whose first token opens the module docstring;
    what follows that line is not read. *)
Theorem regular_check_accepts (body imports rest : list str) (doc : str) (path : Path) :
  (forall l, In l body -> l <> litn "-/") ->
  header_incomplete (List.concat body ++ litn "-/") = false ->
  (forall l, In l imports -> import_line l) ->
  (exists ws, split doc = lit "/-!" :: ws) ->
  regular_check (litn "/-" :: body ++ litn "-/" :: imports ++ doc :: rest) path = Ok [].
Proof.
  intros Hbody Hwords Himp [ws Hdoc]. unfold regular_check.
  cbn [enumerate regular_check_loop]. unfold regular_check_body at 1. simpl.
  rewrite regular_check_loop_block; simpl; auto.
  rewrite Hwords.
  rewrite regular_check_loop_imports; simpl; auto.
  unfold regular_check_body at 1. simpl.
  destruct (eqb doc (litn "")) eqn:Hb.
  { apply eqb_eq in Hb. subst doc. discriminate Hdoc. }
  rewrite Hdoc. reflexivity.
Qed.

Lemma regular_check_accepts_witness :
  regular_check
    (litn "/-" :: [litn "Copyright (c) 2020 A. All rights reserved.";
                   litn "Released under Apache 2.0 license.";
                   litn "Authors: A"]
     ++ litn "-/" :: [litn "import x"; litn ""; litn "import y -- why"]
     ++ litn "/-! # Title" :: [litn "set_option"]) a_lean
  = Ok [].
Proof.
  apply (regular_check_accepts
           [litn "Copyright (c) 2020 A. All rights reserved.";
            litn "Released under Apache 2.0 license."; litn "Authors: A"]
           [litn "import x"; litn ""; litn "import y -- why"]
           [litn "set_option"] (litn "/-! # Title") a_lean).
  - intros l [<- | [<- | [<- | []]]]; discriminate.
  - reflexivity.
  - intros l [<- | [<- | [<- | []]]].
    + right. exists [lit "x"]. split; [reflexivity | left; simpl; lia].
    + left. reflexivity.
    + right. exists [lit "y"; lit "--"; lit "why"]. split; [reflexivity | right; reflexivity].
  - exists [lit "#"; lit "Title"]. reflexivity.
Defined.

(** ** The reporter and the driver *)

(** X11: [format_errors] prints, after what was printed before, the
    lines of exactly the violations that the baseline does not
    suppress, in the order of the list, and sets [new_exceptions] when
    there is at least one of them. *)
Theorem format_errors_prints (fs : FileSystem) (exceptions : list (errno * Path))
  (errs : list error) (st : state) :
  format_errors fs exceptions errs st
  = {| output := output st ++ map render (filter (unsuppressed fs exceptions) errs);
       new_exceptions :=
         new_exceptions st || existsb (unsuppressed fs exceptions) errs |}.
Proof.
  revert st; induction errs as [|[[e n] p] errs IH]; intros [out flag].
  - simpl. now rewrite app_nil_r, orb_false_r.
  - assert (HU : unsuppressed fs exceptions (e, n, p)
                 = negb (registered exceptions e (resolve fs p))) by reflexivity.
    cbn [format_errors filter existsb]. rewrite HU.
    destruct (registered exceptions e (resolve fs p)); cbn [negb]; rewrite IH;
      cbn [output new_exceptions orb map].
    + reflexivity.
    + now rewrite <- app_assoc, orb_true_r.
Qed.

Section Extends.

Variable fs : FileSystem.
Variable exceptions : list (errno * Path).

Lemma extends_refl (st : state) : extends st st.
Proof. split; [exists []; now rewrite app_nil_r | auto]. Qed.

Lemma extends_trans (a b c : state) : extends a b -> extends b c -> extends a c.
Proof.
  intros [[m1 H1] F1] [[m2 H2] F2]. split; [|auto].
  exists (m1 ++ m2). now rewrite H2, H1, app_assoc.
Qed.

Lemma format_errors_extends (errs : list error) (st : state) :
  extends st (format_errors fs exceptions errs st).
Proof.
  revert st; induction errs as [|[[e n] p] errs IH]; intros st; simpl; [apply extends_refl|].
  destruct (registered exceptions e (resolve fs p)); [apply IH|].
  eapply extends_trans; [|apply IH].
  split; simpl; [eauto | reflexivity].
Qed.

Lemma lint_extends (path : Path) (st st' : state) (r : result unit) :
  lint fs exceptions path st = (st', r) -> extends st st'.
Proof.
  unfold lint.
  destruct (readlines fs path) as [lines|e];
    [|intros E; injection E as <- _; apply extends_refl].
  destruct (import_only_check lines path) as [[[] errs]|e].
  - intros E; injection E as <- _.
    eapply extends_trans; apply format_errors_extends.
  - destruct (regular_check lines path) as [errs'|e].
    + destruct (set_option_check lines path) as [errs''|e];
        intros E; injection E as <- _;
        repeat (eapply extends_trans; [|apply format_errors_extends]);
        apply extends_refl.
    + intros E; injection E as <- _. apply format_errors_extends.
  - intros E; injection E as <- _. apply format_errors_extends.
Qed.

End Extends.

(** X12: whether it ends normally or with an exception, a run over the
    files of the command line only adds to what was printed and never
    resets [new_exceptions]. *)
Theorem lint_all_extends (fs : FileSystem) (exceptions : list (errno * Path))
  (argv : list Path) (st st' : state) (r : result unit) :
  lint_all fs exceptions argv st = (st', r) -> extends st st'.
Proof.
  revert st; induction argv as [|p argv IH]; intros st; simpl.
  - intros E; injection E as <- _. apply extends_refl.
  - destruct (lint fs exceptions p st) as [st1 [u|e]] eqn:El.
    + intros H. eapply extends_trans; [eapply lint_extends; eassumption | now apply IH].
    + intros E; injection E as <- _. eapply lint_extends; eassumption.
Qed.

Lemma lint_all_extends_witness :
  extends {| output := [lit "earlier"]; new_exceptions := true |}
    (fst (lint_all (plain_fs (fun _ => Ok [litn "import a b"])) [] [a_lean; a_lean]
            {| output := [lit "earlier"]; new_exceptions := true |})).
Proof.
  apply (lint_all_extends (plain_fs (fun _ => Ok [litn "import a b"])) [] [a_lean; a_lean]
           {| output := [lit "earlier"]; new_exceptions := true |}
           (fst (lint_all (plain_fs (fun _ => Ok [litn "import a b"])) [] [a_lean; a_lean]
                   {| output := [lit "earlier"]; new_exceptions := true |}))
           (Ok tt)).
  reflexivity.
Defined.

(** ** The baseline *)

Section Baseline.

Variable fs : FileSystem.

Lemma load_exceptions_returns (f : list str) (acc : list (errno * Path)) :
  (exists exceptions, load_exceptions fs acc f = Ok exceptions) <->
  (forall line, In line f -> 6 <= List.length (split line)).
Proof.
  revert acc; induction f as [|line f IH]; intros acc; cbn [load_exceptions].
  - split; [intros _ l [] | eauto].
  - destruct (split line) as [|t0 [|t1 [|t2 [|t3 [|t4 [|t5 ts]]]]]] eqn:Hsp;
      try (split; [intros [ex H]; discriminate H
                  | intros H; specialize (H line (or_introl eq_refl));
                    rewrite Hsp in H; simpl in H; lia]).
    assert (Hlen : 6 <= List.length (split line)) by (rewrite Hsp; simpl; lia).
    destruct (errno_of_name t5); rewrite IH;
      (split; [intros H l [<- | Hin]; auto | intros H l Hin; apply H; now right]).
Qed.

Lemma load_exceptions_raises (f : list str) (acc : list (errno * Path)) (e : exn) :
  load_exceptions fs acc f = Raise e -> e = ValueError.
Proof.
  revert acc; induction f as [|line f IH]; intros acc; cbn [load_exceptions];
    [discriminate|].
  destruct (split line) as [|t0 [|t1 [|t2 [|t3 [|t4 [|t5 ts]]]]]];
    try (intros E; injection E as <-; reflexivity).
  destruct (errno_of_name t5); apply IH.
Qed.

End Baseline.

(** X13: loading the baseline succeeds exactly when every line of
    style-exceptions.txt has at least six tokens; otherwise it raises
    ValueError, and it raises nothing else. *)
Theorem load_exceptions_six_tokens (fs : FileSystem) (f : list str) :
  ((exists exceptions, load_exceptions fs [] f = Ok exceptions) <->
   (forall line, In line f -> 6 <= List.length (split line)))
  /\ (forall e, load_exceptions fs [] f = Raise e -> e = ValueError).
Proof.
  split; [apply load_exceptions_returns | apply load_exceptions_raises].
Qed.

Lemma load_exceptions_six_tokens_witness :
  (exists exceptions,
     load_exceptions (plain_fs (fun _ => Raise OSError)) []
       [litn "src/a.lean : line 3 : ERR_LIN : Line has more than 100 characters"]
     = Ok exceptions)
  /\ ValueError = ValueError.
Proof.
  split.
  - apply (proj1 (load_exceptions_six_tokens (plain_fs (fun _ => Raise OSError))
                    [litn "src/a.lean : line 3 : ERR_LIN : Line has more than 100 characters"])).
    intros line [<- | []]. vm_compute. lia.
  - apply (proj2 (load_exceptions_six_tokens (plain_fs (fun _ => Raise OSError))
                    [litn "src/a.lean : ERR_LIN"]) ValueError).
    reflexivity.
Defined.

(** ** Regenerating the baseline from the output *)

Section RoundTrip.

Variable fs : FileSystem.

Lemma split_from_token (w cur rest : str) :
  forallb (fun c => negb (isspace c)) w = true ->
  split_from cur (w ++ rest) = split_from (cur ++ w) rest.
Proof.
  revert cur; induction w as [|c w IH]; intros cur Hw; simpl.
  - now rewrite app_nil_r.
  - simpl in Hw. apply andb_true_iff in Hw as [Hc Hw]. apply negb_true_iff in Hc.
    rewrite Hc, IH by assumption. now rewrite <- app_assoc.
Qed.

Lemma little_succ_nonnil (d : Decimal.uint) : Decimal.Little.succ d <> Decimal.Nil.
Proof. destruct d; discriminate. Qed.

Lemma to_little_uint_nonnil (n : nat) (acc : Decimal.uint) :
  acc <> Decimal.Nil -> Nat.to_little_uint n acc <> Decimal.Nil.
Proof.
  revert acc; induction n as [|n IH]; intros acc Hacc; simpl; [assumption|].
  apply IH, little_succ_nonnil.
Qed.

Lemma digits_token (d : Decimal.uint) :
  forallb (fun c => negb (isspace c)) (lit (NilEmpty.string_of_uint d)) = true.
Proof. induction d; simpl; try reflexivity; assumption. Qed.

(** A printed line number is one token. *)
Lemma of_nat_token (n : nat) :
  of_nat n <> [] /\ forallb (fun c => negb (isspace c)) (of_nat n) = true.
Proof.
  split; [|apply digits_token].
  unfold of_nat. destruct (Nat.to_uint n) eqn:E; try discriminate.
  exfalso. unfold Nat.to_uint in E. apply DecimalFacts.rev_nil_inv in E.
  revert E. apply to_little_uint_nonnil. discriminate.
Qed.

Lemma split_from_line_label (cur rest : str) :
  cur <> [] ->
  split_from cur (lit " : line " ++ rest)
  = cur :: lit ":" :: lit "line" :: split_from [] rest.
Proof. destruct cur; [contradiction | reflexivity]. Qed.

Lemma split_from_colon (cur rest : str) :
  cur <> [] ->
  split_from cur (lit " : " ++ rest) = cur :: lit ":" :: split_from [] rest.
Proof. destruct cur; [contradiction | reflexivity]. Qed.

(** The tokens of a printed line: the path, the line number and the
    name of the violation code in sixth place. *)
Lemma split_printed_line (e : errno) (n : nat) (p : Path) :
  plain_path p ->
  exists name rest,
    split (printed_line (e, n, p))
    = p :: lit ":" :: lit "line" :: of_nat n :: lit ":" :: name :: rest
    /\ errno_of_name name = Some e.
Proof.
  intros [Hp Htok]. destruct (of_nat_token n) as [Hn Hdig].
  unfold printed_line, render, err_path, err_line, err_no. cbn [fst snd].
  rewrite <- !app_assoc. unfold split.
  rewrite split_from_token by assumption. cbn [app].
  rewrite split_from_line_label by assumption.
  rewrite split_from_token by assumption. cbn [app].
  rewrite split_from_colon by assumption.
  assert (Hmsg : split_from [] (message e ++ [nl])
                 = hd [] (split_from [] (message e ++ [nl]))
                   :: tl (split_from [] (message e ++ [nl]))
                 /\ errno_of_name (hd [] (split_from [] (message e ++ [nl]))) = Some e)
    by (destruct e; vm_compute; split; reflexivity).
  destruct Hmsg as [Hsplit Hname].
  exists (hd [] (split_from [] (message e ++ [nl]))),
         (tl (split_from [] (message e ++ [nl]))).
  split; [do 5 f_equal; exact Hsplit | exact Hname].
Qed.

Lemma load_exceptions_printed (errs : list error) (acc : list (errno * Path)) :
  (forall e, In e errs -> plain_path (err_path e)) ->
  load_exceptions fs acc (map printed_line errs)
  = Ok (acc ++ map (fun e => (err_no e, root_join fs (err_path e))) errs).
Proof.
  revert acc; induction errs as [|[[e n] p] errs IH]; intros acc Hp.
  - simpl. now rewrite app_nil_r.
  - cbn [map load_exceptions].
    destruct (split_printed_line e n p) as (name & rest & -> & ->);
      [apply (Hp (e, n, p)); now left|].
    rewrite IH; [|intros x Hx; apply Hp; now right].
    now rewrite <- app_assoc.
Qed.

Lemma format_errors_all_registered (exceptions : list (errno * Path))
  (errs : list error) (st : state) :
  (forall e, In e errs -> In (err_no e, resolve fs (err_path e)) exceptions) ->
  format_errors fs exceptions errs st = st.
Proof.
  induction errs as [|[[e n] p] errs IH]; intros H; simpl; [reflexivity|].
  rewrite (proj2 (registered_In exceptions e (resolve fs p)));
    [|apply (H (e, n, p)); now left].
  apply IH. intros x Hx. apply H. now right.
Qed.

Lemma format_errors_empty_baseline (errs : list error) (st : state) :
  output (format_errors fs [] errs st) = output st ++ map render errs.
Proof.
  rewrite format_errors_output. f_equal. f_equal.
  induction errs as [|x errs IH]; simpl; [reflexivity | now rewrite IH].
Qed.

End RoundTrip.

(** X14: a baseline made of the lines that the script prints for a list
    of violations loads as the list of their kinds, each with its path
    joined to ROOT_DIR, in the same order, provided each path is a
    single token. *)
Theorem baseline_round_trip (fs : FileSystem) (errs : list error) :
  (forall e, In e errs -> plain_path (err_path e)) ->
  load_exceptions fs [] (map printed_line errs)
  = Ok (map (fun e => (err_no e, root_join fs (err_path e))) errs).
Proof. intros H. now rewrite load_exceptions_printed. Qed.

Lemma baseline_round_trip_witness :
  load_exceptions (plain_fs (fun _ => Raise OSError)) []
    (map printed_line [(ERR_LIN, 120, a_lean); (ERR_SAV, 7, a_lean)])
  = Ok (map (fun e => (err_no e, root_join (plain_fs (fun _ => Raise OSError)) (err_path e)))
          [(ERR_LIN, 120, a_lean); (ERR_SAV, 7, a_lean)]).
Proof.
  apply (baseline_round_trip (plain_fs (fun _ => Raise OSError))
           [(ERR_LIN, 120, a_lean); (ERR_SAV, 7, a_lean)]).
  intros e [<- | [<- | []]]; split; try discriminate; reflexivity.
Defined.

(** X15: when the output printed for a list of violations with an
    empty baseline is loaded as the baseline, reporting the same
    violations again prints nothing and leaves [new_exceptions] as it
    is, provided each path is a single token and its join with ROOT_DIR
    is its resolved form. *)
Theorem regenerated_baseline_silences (fs : FileSystem) (errs : list error) :
  (forall e, In e errs ->
     plain_path (err_path e) /\ root_join fs (err_path e) = resolve fs (err_path e)) ->
  exists exceptions,
    load_exceptions fs []
      (map (fun line => line ++ [nl]) (output (format_errors fs [] errs initial)))
    = Ok exceptions
    /\ forall st, format_errors fs exceptions errs st = st.
Proof.
  intros H. rewrite format_errors_empty_baseline. simpl. rewrite map_map.
  change (fun x => render x ++ [nl]) with printed_line.
  rewrite load_exceptions_printed by (intros e He; apply H, He).
  eexists. split; [reflexivity|]. intros st. simpl.
  apply format_errors_all_registered. intros e He.
  apply in_map_iff. exists e. split; [|assumption].
  f_equal. apply H, He.
Qed.

Lemma regenerated_baseline_silences_witness :
  exists exceptions,
    load_exceptions
      {| resolve := fun p => lit "/root/mathlib/" ++ p;
         root_join := fun p => lit "/root/mathlib/" ++ p;
         readlines := fun _ => Raise OSError |} []
      (map (fun line => line ++ [nl])
         (output (format_errors
                    {| resolve := fun p => lit "/root/mathlib/" ++ p;
                       root_join := fun p => lit "/root/mathlib/" ++ p;
                       readlines := fun _ => Raise OSError |} []
                    [(ERR_LIN, 120, a_lean); (ERR_COP, 0, a_lean)] initial)))
    = Ok exceptions
    /\ forall st,
         format_errors
           {| resolve := fun p => lit "/root/mathlib/" ++ p;
              root_join := fun p => lit "/root/mathlib/" ++ p;
              readlines := fun _ => Raise OSError |} exceptions
           [(ERR_LIN, 120, a_lean); (ERR_COP, 0, a_lean)] st = st.
Proof.
  apply (regenerated_baseline_silences
           {| resolve := fun p => lit "/root/mathlib/" ++ p;
              root_join := fun p => lit "/root/mathlib/" ++ p;
              readlines := fun _ => Raise OSError |}
           [(ERR_LIN, 120, a_lean); (ERR_COP, 0, a_lean)]).
  intros e [<- | [<- | []]]; (split; [split; [discriminate | reflexivity] | reflexivity]).
Defined.

(** ** The printed line identifies the violation *)

Section Render.

Lemma lit_inj (a b : string) : lit a = lit b -> a = b.
Proof.
  unfold lit. intros H.
  rewrite <- (string_of_list_ascii_of_string a), <- (string_of_list_ascii_of_string b).
  f_equal. revert H. generalize (list_ascii_of_string a), (list_ascii_of_string b).
  intros x; induction x as [|c x IH]; intros [|d y]; simpl; try discriminate; [reflexivity|].
  intros H. injection H as Hc Hxy.
  rewrite <- (ascii_N_embedding c), <- (ascii_N_embedding d), Hc. f_equal. now apply IH.
Qed.

Lemma of_nat_inj (n n' : nat) : of_nat n = of_nat n' -> n = n'.
Proof.
  unfold of_nat. intros H. apply lit_inj in H.
  apply DecimalNat.Unsigned.to_uint_inj.
  assert (E : NilEmpty.uint_of_string (NilEmpty.string_of_uint (Nat.to_uint n))
              = NilEmpty.uint_of_string (NilEmpty.string_of_uint (Nat.to_uint n')))
    by now rewrite H.
  rewrite !NilEmpty.usu in E. now injection E.
Qed.

Lemma split_number_message (n : nat) (e : errno) :
  split (of_nat n ++ lit " : " ++ message e)
  = of_nat n :: lit ":" :: split (message e).
Proof.
  destruct (of_nat_token n) as [Hn Hdig]. unfold split.
  rewrite split_from_token by assumption. cbn [app].
  now rewrite split_from_colon.
Qed.

End Render.

(** X16: for one path, the printed line determines the kind and the
    line number of the violation: two violations of a file that print
    the same line are the same violation. *)
Theorem render_inj (e e' : errno) (n n' : nat) (path : Path) :
  render (e, n, path) = render (e', n', path) -> e = e' /\ n = n'.
Proof.
  unfold render, err_path, err_line, err_no. cbn [fst snd]. intros H.
  apply app_inv_head in H. apply app_inv_head in H.
  assert (Hs : split (of_nat n ++ lit " : " ++ message e)
               = split (of_nat n' ++ lit " : " ++ message e')) by now rewrite H.
  rewrite !split_number_message in Hs. injection Hs as Hn He.
  split; [|now apply of_nat_inj].
  destruct e, e'; try reflexivity; vm_compute in He; discriminate He.
Qed.

Lemma render_inj_witness : ERR_LIN = ERR_LIN /\ 12 = 12.
Proof. apply (render_inj ERR_LIN ERR_LIN 12 12 a_lean). reflexivity. Defined.

(** ** The reserved-notation check *)

(** X17: the reserved-notation check reports line [n] exactly when the
    file is not the reserved-notation file (by resolved path) and the
    line reaches the check through both filters and starts, at its
    first character, with [reserve] or [precedence]. *)
Theorem reserved_notation_check_reports (fs : FileSystem) (lines : list str)
  (path : Path) (n : nat) :
  In (ERR_RNT, n, path) (reserved_notation_check fs lines path) <->
  resolve fs path <> RESERVED_NOTATION fs /\
  exists l, In (n, l) (skip_string (skip_comments (enumerate lines 1))) /\
            (startswith l (lit "reserve") = true \/
             startswith l (lit "precedence") = true).
Proof.
  unfold reserved_notation_check.
  destruct (eqb (resolve fs path) (RESERVED_NOTATION fs)) eqn:E.
  - apply eqb_eq in E. split; [intros [] | intros [H _]; contradiction].
  - apply eqb_neq in E. rewrite reserved_notation_loop_spec. cbn [app].
    rewrite in_map_iff. split.
    + intros [[m l] [Em Hin]]. injection Em as ->.
      apply filter_In in Hin as [Hin Hk]. cbn [snd] in Hk.
      apply orb_true_iff in Hk. eauto.
    + intros [_ [l [Hin Hk]]]. exists (n, l). split; [reflexivity|].
      apply filter_In. split; [assumption|]. cbn [snd]. now apply orb_true_iff.
Qed.

(** ** stripPrefix of port_status.py *)

Section StripPrefix.

Import PortStatus.

Lemma lstrip_suffix (s : str) : exists pre, s = pre ++ lstrip s.
Proof.
  induction s as [|c s [pre IH]]; simpl; [now exists []|].
  destruct (isspace c); [exists (c :: pre); simpl; now f_equal | now exists []].
Qed.

Lemma lstrip_head (s : str) (c : char) (rest : str) :
  lstrip s = c :: rest -> isspace c = false.
Proof.
  induction s as [|d s IH]; simpl; [discriminate|].
  destruct (isspace d) eqn:Hd; [assumption|].
  intros E. injection E as <- _. assumption.
Qed.

Lemma startswith_length (s pre : str) :
  startswith s pre = true -> List.length pre <= List.length s.
Proof.
  revert s; induction pre as [|p pre IH]; intros [|c s]; simpl; intros H;
    try lia; try discriminate H.
  apply andb_true_iff in H as [_ H]. apply IH in H. lia.
Qed.

Lemma startswith_app (s pre more : str) :
  startswith s (pre ++ more) = true -> startswith s pre = true.
Proof.
  revert s; induction pre as [|p pre IH]; intros [|c s]; simpl; intros H;
    try reflexivity; try discriminate H.
  apply andb_true_iff in H as [Hc H]. rewrite Hc. simpl. now apply IH.
Qed.

Lemma suffix_length (pre s t : str) : s = pre ++ t -> List.length t <= List.length s.
Proof. intros ->. rewrite length_app. lia. Qed.

End StripPrefix.

(** X18: [stripPrefix] returns a suffix of the tag; it returns the tag
    itself exactly when the tag does not start with [No]; and for a tag
    that starts with [No] but not with [No: ] the result does not start
    with whitespace. *)
Theorem stripPrefix_spec (tag : str) :
  (exists pre, tag = pre ++ PortStatus.stripPrefix tag)
  /\ (PortStatus.stripPrefix tag = tag <-> startswith tag (lit "No") = false)
  /\ (startswith tag (lit "No") = true -> startswith tag (lit "No: ") = false ->
      forall c rest, PortStatus.stripPrefix tag = c :: rest -> isspace c = false).
Proof.
  unfold PortStatus.stripPrefix.
  destruct (startswith tag (lit "No: ")) eqn:H4.
  - assert (Hlen : 4 <= List.length tag) by (apply startswith_length in H4; exact H4).
    assert (H2 : startswith tag (lit "No") = true).
    { apply startswith_app with (more := lit ": "). exact H4. }
    repeat split.
    + exists (firstn 4 tag). now rewrite firstn_skipn.
    + intros E. assert (List.length (skipn 4 tag) = List.length tag) by now rewrite E.
      rewrite length_skipn in H. lia.
    + congruence.
    + discriminate.
  - destruct (startswith tag (lit "No")) eqn:H2.
    + assert (Hlen : 2 <= List.length tag) by (apply startswith_length in H2; exact H2).
      destruct (lstrip_suffix (skipn 2 tag)) as [pre Hpre].
      repeat split.
      * exists (firstn 2 tag ++ pre). rewrite <- app_assoc, <- Hpre. now rewrite firstn_skipn.
      * intros E. apply suffix_length in Hpre. rewrite E, length_skipn in Hpre. lia.
      * discriminate.
      * intros _ _ c rest. apply lstrip_head.
    + repeat split; try discriminate. now exists [].
Qed.

Lemma stripPrefix_spec_witness :
  PortStatus.stripPrefix (lit "No   depends on x") = lit "depends on x"
  /\ isspace 100%N = false.
Proof.
  split; [reflexivity|].
  apply (proj2 (proj2 (stripPrefix_spec (lit "No   depends on x")))
           eq_refl eq_refl 100%N (lit "epends on x")).
  reflexivity.
Defined.

(** ** When a file is import-only *)

Lemma import_only_loop_classifies (path : Path) (xs : list (nat * str))
  (acc : list error) :
  (forall n l, In (n, l) xs ->
     exists ws, split l = lit "--" :: ws \/ split l = lit "import" :: ws) ->
  exists errs, import_only_loop path acc xs = Ok (true, errs).
Proof.
  revert acc; induction xs as [|[n l] xs IH]; intros acc Hxs; cbn [import_only_loop];
    [eauto|].
  assert (Hrest : forall acc', exists errs, import_only_loop path acc' xs = Ok (true, errs)).
  { intros acc'. apply IH. intros k h Hin. apply (Hxs k h). now right. }
  destruct (Hxs n l) as [ws [-> | ->]]; [now left | |];
    unfold index at 1; cbn [nth_error bind]; simpl eqb; cbn [negb].
  - apply Hrest.
  - destruct (2 <? List.length (lit "import" :: ws)) eqn:Hlen; [|apply Hrest].
    apply Nat.ltb_lt in Hlen.
    destruct (index_in_range (lit "import" :: ws) 2 Hlen) as [w2 ->].
    cbn [bind]. destruct (eqb w2 (lit "--")); apply Hrest.
Qed.

(** X19: the import-only check classifies a file as import-only
    exactly when the first token of every line that comment-skip mode
    yields is [--] or [import]; in particular it then does not raise. *)
Theorem import_only_check_classifies (lines : list str) (path : Path) :
  (exists errs, import_only_check lines path = Ok (true, errs)) <->
  (forall n l, In (n, l) (skip_comments (enumerate lines 1)) ->
     exists ws, split l = lit "--" :: ws \/ split l = lit "import" :: ws).
Proof.
  split.
  - intros [errs H] n l Hin.
    destruct (import_only_loop_true path _ [] errs H n l Hin) as (w0 & ws & Hsp & [-> | ->]);
      eauto.
  - apply import_only_loop_classifies.
Qed.
